(** * mxprops: the property tree of mxcore (src/mxprops/mxprops.h)

    A shallow embedding of [mxprops::PTree], its [Record]s and its two view
    classes [ConstRef] and [Ref], followed by the properties of the typed
    get/set contract and of key enumeration.

    Modelling choices.
    - [std::string] is [string]; [operator<] on it is the byte-wise
      lexicographic order, which is [String.compare].
    - [std::map<std::string, Record>] is a list of (key, record) pairs kept
      in strictly ascending key order, because enumeration order and
      [lower_bound] are observable.  A reference into the map is modelled
      by reading the record and writing it back under the same key.
    - [boost::property_tree::translator_between<std::string, T>] is the type
      class [Translator].
    - [PathPropData] (declared in mxprops/pathprop.h) is a section variable
      together with its default-constructed value.
    - The mutex is left out: every operation is modelled as one atomic step
      on the table. *)

From Stdlib Require Import String Ascii List Bool Arith NArith Lia Sorted.
Import ListNotations.
Local Open Scope string_scope.
Local Open Scope list_scope.

(** ** [std::string] operations used by the source *)

(** [std::string::substr(pos)]: the suffix starting at [pos].  The source
    only calls it with [pos <= size()], where it does not throw. *)
Definition substr_from (pos : nat) (s : string) : string :=
  substring pos (String.length s - pos) s.

(** [std::string::find('.')]; [None] stands for [npos]. *)
Definition find_dot (s : string) : option nat := index 0 "." s.

(** [operator<] and [operator<=] of [std::string]. *)
Definition str_lt (a b : string) : Prop := (a ?= b)%string = Lt.
Definition str_le (a b : string) : Prop := (a ?= b)%string <> Gt.

(** ** Translators and default construction *)

(** [translator_between<std::string, TData>::type]: [get_value] decodes the
    stored string, [put_value] encodes a datum; both may fail. *)
Class Translator (TData : Type) := {
  get_value : string -> option TData;
  put_value : TData -> option string
}.

(** A type with a default constructor, as [PathPropData] is used by
    [Record()]. *)
Class DefaultCtor (A : Type) := default_ctor : A.

(** [boost::property_tree::id_translator<std::string>], the translator
    between [std::string] and itself. *)
#[export] Instance id_translator : Translator string := {
  get_value s := Some s;
  put_value s := Some s
}.

(** A user translator with a partial encoder: a [nat] below ten is stored
    as its decimal digit, anything else is refused. *)
Definition digit_put (n : nat) : option string :=
  if Nat.ltb n 10 then Some (String (ascii_of_nat (48 + n)) "") else None.

Definition digit_get (s : string) : option nat :=
  match s with
  | String c "" =>
      let n := nat_of_ascii c in
      if Nat.leb 48 n && Nat.leb n 57 then Some (n - 48) else None
  | _ => None
  end.

#[export] Instance digit_translator : Translator nat := {
  get_value := digit_get;
  put_value := digit_put
}.

#[export] Instance unit_default : DefaultCtor unit := tt.

(** ** [PropsError] *)

(** [what] is the message of the [std::runtime_error] base. *)
Record PropsError := {
  what : string;
  propertyName : string
}.

(** The constructor [PropsError(propertyName, msg)]. *)
Definition PropsError_ctor (name msg : string) : PropsError :=
  {| what := (msg ++ name)%string; propertyName := name |}.

Definition getPropertyName (e : PropsError) : string := propertyName e.

(** ** Static path helpers of [PTree] *)

Definition joinPaths (p1 p2 : string) : string :=
  if (p1 =? "")%string then p2
  else if (p2 =? "")%string then p1
  else (p1 ++ "." ++ p2)%string.

Definition isSimplePath (p : string) : bool :=
  negb (p =? "")%string &&
  match find_dot p with None => true | Some _ => false end.

Definition splitFirst (p : string) : string :=
  match find_dot p with
  | None => p
  | Some pos => substring 0 pos p
  end.

(** ** Views *)

(** [ConstRef]: the owner pointer is the store passed to each operation
    (every [assert(owner)] holds); the data members left are the two
    strings. *)
Record ConstRef := {
  selfPath : string;
  selfId : string
}.

(** [Ref] derives from [ConstRef] and adds no data member. *)
Record Ref := { Ref_base :> ConstRef }.

Definition getSelfPath (v : ConstRef) : string := selfPath v.
Definition getPath (v : ConstRef) : string := selfPath v.
Definition getId (v : ConstRef) : string := selfId v.

Definition getSubtreeImpl (v : ConstRef) (path : string) : ConstRef :=
  {| selfPath := joinPaths (selfPath v) path; selfId := selfId v |}.

Definition ConstRef_getSubtree (v : ConstRef) (path : string) : ConstRef :=
  getSubtreeImpl v path.

Definition ConstRef_reIDfy (v : ConstRef) (subId : string) : ConstRef :=
  {| selfPath := selfPath v; selfId := joinPaths (selfId v) subId |}.

Definition ConstRef_getSubtreeForSubId (v : ConstRef) (path subId : string)
  : ConstRef :=
  let r := ConstRef_getSubtree v path in
  {| selfPath := selfPath r; selfId := joinPaths (selfId v) subId |}.

Definition getSubtree (v : Ref) (path : string) : Ref :=
  {| Ref_base := getSubtreeImpl v path |}.

Definition reIDfy (v : Ref) (subId : string) : Ref :=
  {| Ref_base := ConstRef_reIDfy v subId |}.

Definition getSubtreeForSubId (v : Ref) (path subId : string) : Ref :=
  {| Ref_base := ConstRef_getSubtreeForSubId v path subId |}.

(** [PTree::root(id)]. *)
Definition root (id : string) : Ref :=
  {| Ref_base := {| selfPath := ""; selfId := id |} |}.

(** [listKeys]'s loop over [allKeys], with the local [prevKey]. *)
Fixpoint listKeys_loop (allKeys : list string) (prevKey : string)
    (result : list string) : list string :=
  match allKeys with
  | [] => result
  | key :: rest =>
      let k := splitFirst key in
      if negb (k =? prevKey)%string
      then listKeys_loop rest k (result ++ [k])
      else listKeys_loop rest prevKey result
  end.

(** ** Records, the table and the operations of the views *)

Section Model.

Context {PathPropData : Type} {PathPropData_ctor : DefaultCtor PathPropData}.

(** [PTree::Record]. *)
Record PRecord := {
  value : string;
  defined : bool;
  pathData : PathPropData
}.

(** [Record()]: an empty string, [defined(false)], default path data. *)
Definition Record_ctor : PRecord :=
  {| value := ""; defined := false; pathData := default_ctor |}.

Definition getValue (r : PRecord) : string := value r.

Definition setValue (v : string) (r : PRecord) : PRecord :=
  {| value := v; defined := true; pathData := pathData r |}.

Definition setValue_pd (v : string) (pd : PathPropData) (r : PRecord)
  : PRecord :=
  let r' := setValue v r in
  {| value := value r'; defined := defined r'; pathData := pd |}.

Definition isDefined (r : PRecord) : bool := defined r.

(** [get_as<TData>(getDefined)]: the second component is what is written
    through [getDefined] when that pointer is not null. *)
Definition get_as {TData} `{Translator TData} (r : PRecord)
  : option TData * bool :=
  (if negb (defined r) then None else get_value (value r), defined r).

(** [set_as<TData>(d)]: [defined] takes the truth value of the optional
    [strTranslated], [value] its content or the literal. *)
Definition set_as {TData} `{Translator TData} (d : TData) (r : PRecord)
  : PRecord :=
  let strTranslated := put_value d in
  {| value := match strTranslated with Some s => s | None => "<invalid>" end;
     defined := match strTranslated with Some _ => true | None => false end;
     pathData := pathData r |}.

Definition Record_undefine (r : PRecord) : PRecord :=
  {| value := value r; defined := false; pathData := pathData r |}.

Definition getPathData (r : PRecord) : PathPropData := pathData r.

(** [propmap_t]: the entries of the [std::map] in iteration order. *)
Definition propmap_t : Type := list (string * PRecord).

(** [PTree()] and [clear()]: no entries. *)
Definition PTree_ctor : propmap_t := [].
Definition clear (pm : propmap_t) : propmap_t := [].

(** Lookup by key, descending by comparison as the tree does. *)
Fixpoint map_find (k : string) (pm : propmap_t) : option PRecord :=
  match pm with
  | [] => None
  | (k', r) :: rest =>
      match (k ?= k')%string with
      | Lt => None
      | Eq => Some r
      | Gt => map_find k rest
      end
  end.

(** Store [r] under [k]: in place when the key is there, otherwise as a
    new entry at its position in the order. *)
Fixpoint map_store (k : string) (r : PRecord) (pm : propmap_t) : propmap_t :=
  match pm with
  | [] => [(k, r)]
  | (k', r') :: rest =>
      match (k ?= k')%string with
      | Lt => (k, r) :: pm
      | Eq => (k', r) :: rest
      | Gt => (k', r') :: map_store k r rest
      end
  end.

(** [PTree::getRecord(path)], that is [propMap[path]]: the record under
    [path], inserted default-constructed when the key is missing.  The table
    is returned with it. *)
Definition getRecord (path : string) (pm : propmap_t) : PRecord * propmap_t :=
  match map_find path pm with
  | Some r => (r, pm)
  | None => (Record_ctor, map_store path Record_ctor pm)
  end.

(** A member function [f] applied through the reference that
    [getRecord(path)] returns. *)
Definition on_record (path : string) (f : PRecord -> PRecord)
    (pm : propmap_t) : propmap_t :=
  let '(r, pm') := getRecord path pm in map_store path (f r) pm'.

(** [pm.lower_bound(k)]: an iterator is the list of entries from its
    position on, [pm.end()] the empty list. *)
Fixpoint lower_bound (k : string) (pm : propmap_t) : propmap_t :=
  match pm with
  | [] => []
  | (k', _) :: rest => if (k' <? k)%string then lower_bound k rest else pm
  end.

(** *** [ConstRef] *)

Definition ConstRef_getRecord (v : ConstRef) (path : string) (pm : propmap_t)
  : PRecord * propmap_t :=
  getRecord (joinPaths (selfPath v) path) pm.

(** [get<TData>(path, defaultValue)]. *)
Definition get_or {TData} `{Translator TData} (v : ConstRef) (path : string)
    (defaultValue : TData) (pm : propmap_t) : TData * propmap_t :=
  let '(r, pm') := ConstRef_getRecord v path pm in
  (match fst (get_as r) with Some x => x | None => defaultValue end, pm').

(** [getOptional<TData>(path, getDefined)]. *)
Definition getOptional {TData} `{Translator TData} (v : ConstRef)
    (path : string) (pm : propmap_t) : (option TData * bool) * propmap_t :=
  let '(r, pm') := ConstRef_getRecord v path pm in (get_as r, pm').

(** [get<TData>(path)]: [inl] is the thrown [PropsError]. *)
Definition get {TData} `{Translator TData} (v : ConstRef) (path : string)
    (pm : propmap_t) : (PropsError + TData) * propmap_t :=
  let '((o, isDef), pm') := getOptional v path pm in
  match o with
  | None =>
      (inl (PropsError_ctor (getSelfPath v ++ "." ++ path)%string
              (if isDef then "Bad format " else "Undefined property: ")),
       pm')
  | Some x => (inr x, pm')
  end.

(** [ConstRef::getValue<TData>(defaultValue)] and [getValue<TData>()]:
    the value at [selfPath] itself. *)
Definition ConstRef_getValue_or {TData} `{Translator TData} (v : ConstRef)
    (defaultValue : TData) (pm : propmap_t) : TData * propmap_t :=
  get_or v "" defaultValue pm.

Definition ConstRef_getValue {TData} `{Translator TData} (v : ConstRef)
    (pm : propmap_t) : option TData * propmap_t :=
  let '((o, _), pm') := getOptional v "" pm in (o, pm').

(** The loop of [listKeysRecursive] for an empty [selfPath]. *)
Fixpoint scan_all (withUndefined : bool) (it : propmap_t)
    (result : list string) : list string :=
  match it with
  | [] => result
  | (k, r) :: it' =>
      scan_all withUndefined it'
        (if withUndefined || isDefined r then result ++ [k] else result)
  end.

(** The loop of [listKeysRecursive] for a non-empty [selfPath];
    [boost::starts_with(it->first, selfPath)] is [prefix selfPath k]. *)
Fixpoint scan_subtree (sp : string) (withUndefined : bool) (it : propmap_t)
    (result : list string) : list string :=
  match it with
  | [] => result
  | (k, r) :: it' =>
      if prefix sp k then
        scan_subtree sp withUndefined it'
          (if withUndefined || isDefined r then
             result ++ [if (sp =? k)%string then ""
                        else substr_from (String.length sp + 1) k]
           else result)
      else result
  end.

Definition listKeysRecursive (v : ConstRef) (result : list string)
    (withUndefined : bool) (pm : propmap_t) : list string :=
  let it := lower_bound (selfPath v) pm in
  if (selfPath v =? "")%string
  then scan_all withUndefined it result
  else scan_subtree (selfPath v) withUndefined it result.

Definition listKeys (v : ConstRef) (result : list string)
    (withUndefined : bool) (pm : propmap_t) : list string :=
  let allKeys := listKeysRecursive v [] withUndefined pm in
  listKeys_loop allKeys "" result.

(** *** [Ref] *)

Definition setRecord (v : Ref) (path : string) (r : PRecord)
    (pm : propmap_t) : propmap_t :=
  on_record (joinPaths (selfPath v) path) (fun _ => r) pm.

Definition set {TData} `{Translator TData} (v : Ref) (path : string)
    (d : TData) (pm : propmap_t) : propmap_t :=
  on_record (joinPaths (selfPath v) path) (set_as d) pm.

Definition undefine (v : Ref) (path : string) (pm : propmap_t) : propmap_t :=
  on_record (joinPaths (selfPath v) path) Record_undefine pm.

Definition Ref_setValue {TData} `{Translator TData} (v : Ref) (d : TData)
    (pm : propmap_t) : propmap_t :=
  on_record (selfPath v) (set_as d) pm.

(** The order [std::map] keeps its keys in: strictly ascending. *)
Definition key_lt (e1 e2 : string * PRecord) : Prop :=
  (fst e1 ?= fst e2)%string = Lt.

Definition ordered (pm : propmap_t) : Prop := StronglySorted key_lt pm.

(** Vocabulary for the enumeration loops: the string pushed for a visited
    entry, the filter on the defined flag, and the loop condition. *)
Definition pushed (sp : string) (e : string * PRecord) : string :=
  if (sp =? fst e)%string then ""
  else substr_from (String.length sp + 1) (fst e).

Definition listed (wu : bool) (e : string * PRecord) : bool :=
  wu || isDefined (snd e).

Definition starts_with (sp : string) (e : string * PRecord) : bool :=
  prefix sp (fst e).

(** The entries of the subtree of [sp]: the key is [sp] itself, or [sp]
    followed by the separator and a relative path. *)
Definition in_subtree (sp : string) (e : string * PRecord) : bool :=
  (sp =? fst e)%string || prefix (sp ++ ".") (fst e).

End Model.

Arguments PRecord : clear implicits.
Arguments propmap_t : clear implicits.

(** ** Stores used by the worked examples *)

(** All of them are built with [set] on a root write view of an empty
    store, with strings as data and [unit] as path data. *)
Definition fresh : propmap_t unit := PTree_ctor.

Definition R0 : Ref := root "cfg".

(** Keys ["a.b"] and ["ab"]. *)
Definition store_sibling : propmap_t unit :=
  set R0 "ab" "2" (set R0 "a.b" "1" fresh).

(** Keys ["a"], ["a-b"] and ["a.b"]. *)
Definition store_dash : propmap_t unit :=
  set R0 "a.b" "3" (set R0 "a-b" "2" (set R0 "a" "1" fresh)).

(** The spec's end-to-end scenario: ["count"] and ["nested.name"]. *)
Definition store_scenario : propmap_t unit :=
  set (getSubtree R0 "nested") "name" "abc" (set R0 "count" "3" fresh).

(** A record holding a valid digit. *)
Definition rec_seven : PRecord unit :=
  {| value := "7"; defined := true; pathData := tt |}.

(** ** Facts about [std::string] operations *)

Module StrFacts.

Lemma ascii_compare_refl (c : ascii) : Ascii.compare c c = Eq.
Proof. unfold Ascii.compare. apply N.compare_refl. Qed.

Lemma ascii_compare_lt_trans (a b c : ascii) :
  Ascii.compare a b = Lt -> Ascii.compare b c = Lt -> Ascii.compare a c = Lt.
Proof.
  unfold Ascii.compare. rewrite !N.compare_lt_iff. apply N.lt_trans.
Qed.

Lemma compare_refl (s : string) : (s ?= s) = Eq.
Proof.
  induction s as [|c s IH]; simpl; [reflexivity|].
  now rewrite ascii_compare_refl.
Qed.

Lemma compare_eq (s t : string) : (s ?= t) = Eq <-> s = t.
Proof.
  split; [apply String.compare_eq_iff | intros ->; apply compare_refl].
Qed.

Lemma compare_gt_lt (s t : string) : (s ?= t) = Gt <-> (t ?= s) = Lt.
Proof.
  rewrite (String.compare_antisym t s).
  destruct (s ?= t); simpl; split; congruence.
Qed.

Lemma compare_lt_trans (a b c : string) :
  (a ?= b) = Lt -> (b ?= c) = Lt -> (a ?= c) = Lt.
Proof.
  revert b c. induction a as [|x a IH]; intros [|y b] [|z c]; simpl;
    try congruence.
  destruct (Ascii.compare x y) eqn:Exy; try discriminate;
    destruct (Ascii.compare y z) eqn:Eyz; try discriminate; intros H1 H2.
  - apply Ascii.compare_eq_iff in Exy, Eyz. subst.
    rewrite ascii_compare_refl. eauto.
  - apply Ascii.compare_eq_iff in Exy. subst. now rewrite Eyz.
  - apply Ascii.compare_eq_iff in Eyz. subst. now rewrite Exy.
  - now rewrite (ascii_compare_lt_trans _ _ _ Exy Eyz).
Qed.

Lemma empty_least (s : string) : (s ?= "") <> Lt.
Proof. destruct s; simpl; discriminate. Qed.

(** A string never sorts before one of its prefixes. *)
Lemma prefix_not_lt (p k : string) : prefix p k = true -> (k ?= p) <> Lt.
Proof.
  revert k. induction p as [|c p IH]; intros k Hp.
  - apply empty_least.
  - destruct k as [|d k]; simpl in *; [discriminate|].
    destruct (ascii_dec c d) as [->|]; [|discriminate].
    rewrite ascii_compare_refl. now apply IH.
Qed.

(** The keys that carry a given prefix form an interval of the order:
    whatever lies between the prefix and a string carrying it carries it. *)
Lemma prefix_between (p a b : string) :
  (a ?= p) <> Lt -> (b ?= a) <> Lt -> prefix p b = true -> prefix p a = true.
Proof.
  revert a b. induction p as [|c p IH]; intros a b Hpa Hab Hpb.
  - now destruct a.
  - destruct b as [|y b]; simpl in Hpb; [discriminate|].
    destruct (ascii_dec c y) as [<-|]; [|discriminate].
    destruct a as [|x a]; simpl in *; [congruence|].
    destruct (ascii_dec c x) as [<-|Hne].
    + rewrite ascii_compare_refl in Hpa, Hab. eauto.
    + exfalso.
      destruct (Ascii.compare x c) eqn:Exc; try congruence.
      * apply Ascii.compare_eq_iff in Exc. congruence.
      * rewrite Ascii.compare_antisym, Exc in Hab. simpl in Hab. congruence.
Qed.

Lemma prefix_refl (p : string) : prefix p p = true.
Proof.
  induction p as [|c p IH]; simpl; [reflexivity|].
  destruct (ascii_dec c c); congruence.
Qed.

Lemma prefix_append (p s : string) : prefix p (p ++ s)%string = true.
Proof.
  induction p as [|c p IH]; simpl; [now destruct s|].
  destruct (ascii_dec c c); congruence.
Qed.

Lemma length_append (p s : string) :
  String.length (p ++ s)%string = String.length p + String.length s.
Proof. induction p; simpl; congruence. Qed.

Lemma append_assoc (a b c : string) :
  ((a ++ b) ++ c = a ++ b ++ c)%string.
Proof. induction a as [|x a IH]; simpl; [reflexivity | now rewrite IH]. Qed.

Lemma substring_all (s : string) : substring 0 (String.length s) s = s.
Proof. induction s; simpl; congruence. Qed.

Lemma substr_from_append (p s : string) :
  substr_from (String.length p) (p ++ s)%string = s.
Proof.
  unfold substr_from. rewrite length_append.
  replace (String.length p + String.length s - String.length p)
    with (String.length s) by lia.
  induction p as [|c p IH]; simpl; [apply substring_all | exact IH].
Qed.

Lemma append_nonempty_neq (p s : string) : s <> "" -> (p ++ s)%string <> p.
Proof.
  intros Hs He. apply (f_equal String.length) in He.
  rewrite length_append in He. destruct s; [congruence | simpl in He; lia].
Qed.

End StrFacts.

(** ** The table: lookup, store and the order of the keys *)

Section Table.

Context {PathPropData : Type} {PathPropData_ctor : DefaultCtor PathPropData}.

#[local] Abbreviation PRecord := (PRecord PathPropData).
#[local] Abbreviation propmap_t := (propmap_t PathPropData).

Implicit Types (k path : string) (r : PRecord) (pm : propmap_t).

Lemma map_find_store k r pm : map_find k (map_store k r pm) = Some r.
Proof.
  induction pm as [|[k' r'] rest IH]; simpl.
  - now rewrite StrFacts.compare_refl.
  - destruct (k ?= k')%string eqn:E; simpl.
    + now rewrite E.
    + now rewrite StrFacts.compare_refl.
    + now rewrite E.
Qed.

Lemma map_find_In k r pm : map_find k pm = Some r -> In (k, r) pm.
Proof.
  induction pm as [|[k' r'] rest IH]; simpl; [discriminate|].
  destruct (k ?= k')%string eqn:E; try discriminate.
  - apply StrFacts.compare_eq in E. intros [= ->]. subst. now left.
  - intros H. right. now apply IH.
Qed.

Lemma map_store_keys_above k0 k r pm :
  (k0 ?= k)%string = Lt ->
  Forall (fun e => (k0 ?= fst e)%string = Lt) pm ->
  Forall (fun e => (k0 ?= fst e)%string = Lt) (map_store k r pm).
Proof.
  intros Hk. induction pm as [|[k' r'] rest IH]; simpl; intros Hall.
  - now constructor.
  - inversion Hall as [|? ? Hh Ht]; subst.
    destruct (k ?= k')%string; constructor; auto.
Qed.

Lemma map_store_ordered k r pm : ordered pm -> ordered (map_store k r pm).
Proof.
  unfold ordered. induction pm as [|[k' r'] rest IH]; simpl; intros Hs.
  - repeat constructor.
  - inversion Hs as [|? ? Hrest Hall]; subst.
    destruct (k ?= k')%string eqn:E.
    + apply StrFacts.compare_eq in E. subst. now constructor.
    + constructor; [assumption|].
      constructor; [exact E|].
      eapply Forall_impl; [|exact Hall].
      intros e He. unfold key_lt in *. simpl in *.
      eapply StrFacts.compare_lt_trans; eauto.
    + constructor; [now apply IH|].
      apply map_store_keys_above; [|exact Hall].
      now apply StrFacts.compare_gt_lt.
Qed.

Lemma PTree_ctor_ordered : ordered (PTree_ctor : propmap_t).
Proof. constructor. Qed.

(** [propMap[path]] leaves the record it returns stored under [path]. *)
Lemma getRecord_find path pm :
  map_find path (snd (getRecord path pm)) = Some (fst (getRecord path pm)).
Proof.
  unfold getRecord. destruct (map_find path pm) eqn:E; simpl.
  - exact E.
  - apply map_find_store.
Qed.

Lemma getRecord_ordered path pm :
  ordered pm -> ordered (snd (getRecord path pm)).
Proof.
  unfold getRecord. destruct (map_find path pm); simpl; auto.
  apply map_store_ordered.
Qed.

(** A second [propMap[path]] finds the record and inserts nothing. *)
Lemma getRecord_present path r pm :
  map_find path pm = Some r -> getRecord path pm = (r, pm).
Proof. unfold getRecord. now intros ->. Qed.

Lemma getRecord_absent path pm :
  map_find path pm = None ->
  getRecord path pm = (Record_ctor, map_store path Record_ctor pm).
Proof. unfold getRecord. now intros ->. Qed.

Lemma on_record_eq path f pm :
  on_record path f pm =
  map_store path (f (fst (getRecord path pm))) (snd (getRecord path pm)).
Proof. unfold on_record. now destruct (getRecord path pm). Qed.

Lemma on_record_find path f pm :
  map_find path (on_record path f pm) = Some (f (fst (getRecord path pm))).
Proof. rewrite on_record_eq. apply map_find_store. Qed.

Lemma on_record_ordered path f pm :
  ordered pm -> ordered (on_record path f pm).
Proof.
  intros H. rewrite on_record_eq.
  now apply map_store_ordered, getRecord_ordered.
Qed.

End Table.

(** ** Enumeration: what the prefix scan visits *)

Section Enumeration.

Context {PathPropData : Type} {PathPropData_ctor : DefaultCtor PathPropData}.

#[local] Abbreviation PRecord := (PRecord PathPropData).
#[local] Abbreviation propmap_t := (propmap_t PathPropData).

Implicit Types (k sp : string) (r : PRecord) (pm it : propmap_t)
  (wu : bool).

Lemma filter_none {A} (f : A -> bool) (l : list A) :
  (forall x, In x l -> f x = false) -> filter f l = [].
Proof.
  induction l as [|a l IH]; intros H; simpl; [reflexivity|].
  rewrite (H a) by now left. apply IH. intros x Hx. apply H. now right.
Qed.

Lemma scan_all_acc wu it result :
  scan_all wu it result = result ++ scan_all wu it [].
Proof.
  revert result. induction it as [|[k r] it IH]; intros result; simpl.
  - now rewrite app_nil_r.
  - rewrite IH.
    rewrite (IH (if wu || isDefined r then [k] else [])).
    destruct (wu || isDefined r); simpl; now rewrite <- ?app_assoc.
Qed.

Lemma scan_all_filter wu it :
  scan_all wu it [] = map fst (filter (listed wu) it).
Proof.
  induction it as [|[k r] it IH]; simpl; [reflexivity|].
  rewrite scan_all_acc, IH.
  change (listed wu (k, r)) with (wu || isDefined r).
  destruct (wu || isDefined r); reflexivity.
Qed.

Lemma scan_subtree_acc sp wu it result :
  scan_subtree sp wu it result = result ++ scan_subtree sp wu it [].
Proof.
  revert result. induction it as [|[k r] it IH]; intros result; simpl.
  - now rewrite app_nil_r.
  - destruct (prefix sp k); [|now rewrite app_nil_r].
    rewrite IH. symmetry. rewrite IH. symmetry.
    destruct (wu || isDefined r); simpl; now rewrite <- ?app_assoc.
Qed.

Lemma lower_bound_empty pm : lower_bound "" pm = pm.
Proof.
  destruct pm as [|[k r] rest]; simpl; [reflexivity|].
  unfold String.ltb. pose proof (StrFacts.empty_least k) as H.
  destruct (k ?= "")%string; congruence.
Qed.

(** From a position whose keys are all at or after [sp], the loop visits
    exactly the entries whose key starts with [sp]: once a key fails the
    test, every later key fails it too. *)
Lemma scan_subtree_from sp wu it :
  ordered it ->
  Forall (fun e => (fst e ?= sp)%string <> Lt) it ->
  scan_subtree sp wu it [] =
  map (pushed sp) (filter (listed wu) (filter (starts_with sp) it)).
Proof.
  unfold ordered.
  induction it as [|[k r] it IH]; intros Hs Hge; [reflexivity|].
  inversion Hs as [|? ? Hs' Hall]; subst.
  inversion Hge as [|? ? Hk Hge']; subst. cbn [fst] in Hk.
  cbn [scan_subtree filter].
  change (starts_with sp (k, r)) with (prefix sp k).
  destruct (prefix sp k) eqn:Hp.
  - rewrite scan_subtree_acc, IH by assumption.
    cbn [filter]. change (listed wu (k, r)) with (wu || isDefined r).
    destruct (wu || isDefined r); reflexivity.
  - replace (filter (starts_with sp) it) with (@nil (string * PRecord));
      [reflexivity|].
    symmetry. apply filter_none. intros [k' r'] Hin.
    rewrite Forall_forall in Hall. specialize (Hall _ Hin).
    unfold key_lt in Hall. cbn [fst] in Hall.
    change (starts_with sp (k', r')) with (prefix sp k').
    destruct (prefix sp k') eqn:Hp'; [|reflexivity].
    assert (prefix sp k = true); [|congruence].
    apply (StrFacts.prefix_between sp k k'); auto.
    rewrite (String.compare_antisym k' k), Hall. discriminate.
Qed.

Lemma lower_bound_scan sp wu pm :
  ordered pm ->
  scan_subtree sp wu (lower_bound sp pm) [] =
  map (pushed sp) (filter (listed wu) (filter (starts_with sp) pm)).
Proof.
  unfold ordered.
  induction pm as [|[k r] pm IH]; intros Hs; [reflexivity|].
  inversion Hs as [|? ? Hs' Hall]; subst.
  cbn [lower_bound]. unfold String.ltb.
  destruct (k ?= sp)%string eqn:Hk.
  - apply scan_subtree_from; [exact Hs|].
    constructor; [simpl; congruence|].
    eapply Forall_impl; [|exact Hall].
    intros e He Hlt. unfold key_lt in He. simpl in He.
    apply StrFacts.compare_eq in Hk. subst.
    rewrite (String.compare_antisym sp (fst e)), Hlt in He. discriminate.
  - cbn [filter]. change (starts_with sp (k, r)) with (prefix sp k).
    destruct (prefix sp k) eqn:Hp.
    + apply StrFacts.prefix_not_lt in Hp. congruence.
    + now apply IH.
  - apply scan_subtree_from; [exact Hs|].
    constructor; [simpl; congruence|].
    eapply Forall_impl; [|exact Hall].
    intros e He Hlt. unfold key_lt in He. simpl in He.
    pose proof (StrFacts.compare_lt_trans _ _ _ He Hlt). congruence.
Qed.

(** What [listKeysRecursive] appends on an ordered table: for the root
    view every listed key, otherwise the listed entries whose key starts
    with [selfPath] as a string, each cut after [selfPath] and one more
    character. *)
Lemma listKeysRecursive_scan (v : ConstRef) wu pm :
  ordered pm ->
  listKeysRecursive v [] wu pm =
  if (selfPath v =? "")%string
  then map fst (filter (listed wu) pm)
  else map (pushed (selfPath v))
         (filter (listed wu) (filter (starts_with (selfPath v)) pm)).
Proof.
  intros Hs. unfold listKeysRecursive.
  destruct (selfPath v =? "")%string eqn:E.
  - apply String.eqb_eq in E. rewrite E, lower_bound_empty.
    apply scan_all_filter.
  - now apply lower_bound_scan.
Qed.

(** The entry stored under [joinPaths selfPath p] is pushed as [p]. *)
Lemma pushed_joinPaths sp p r :
  sp <> "" -> pushed sp (joinPaths sp p, r) = p.
Proof.
  intros Hsp. unfold pushed, joinPaths. cbn [fst].
  destruct (sp =? "")%string eqn:E; [apply String.eqb_eq in E; congruence|].
  destruct (p =? "")%string eqn:Ep.
  - apply String.eqb_eq in Ep. now rewrite String.eqb_refl.
  - apply String.eqb_neq in Ep.
    assert (Hne : (sp =? sp ++ "." ++ p)%string = false).
    { apply String.eqb_neq. intros E2. symmetry in E2.
      apply StrFacts.append_nonempty_neq in E2; [contradiction|discriminate]. }
    rewrite Hne.
    replace (String.length sp + 1) with (String.length (sp ++ "."))
      by (rewrite StrFacts.length_append; reflexivity).
    replace (sp ++ "." ++ p)%string with ((sp ++ ".") ++ p)%string
      by apply StrFacts.append_assoc.
    apply StrFacts.substr_from_append.
Qed.

Lemma starts_with_joinPaths sp p r : starts_with sp (joinPaths sp p, r) = true.
Proof.
  unfold starts_with, joinPaths. simpl.
  destruct (sp =? "")%string eqn:E.
  - apply String.eqb_eq in E. subst. now destruct p.
  - destruct (p =? "")%string; [apply StrFacts.prefix_refl|].
    apply StrFacts.prefix_append.
Qed.

(** A listed record stored under the joined path of a view shows up in
    that view's enumeration under its relative path. *)
Lemma listKeysRecursive_includes (v : ConstRef) p r wu pm :
  ordered pm ->
  map_find (joinPaths (selfPath v) p) pm = Some r ->
  wu || isDefined r = true ->
  In p (listKeysRecursive v [] wu pm).
Proof.
  intros Hs Hf Hl. apply map_find_In in Hf.
  rewrite listKeysRecursive_scan by assumption.
  destruct (selfPath v =? "")%string eqn:E.
  - apply String.eqb_eq in E. rewrite E in Hf. cbn in Hf.
    apply in_map_iff. exists (p, r). split; [reflexivity|].
    apply filter_In. split; [assumption|exact Hl].
  - apply String.eqb_neq in E.
    apply in_map_iff. exists (joinPaths (selfPath v) p, r). split.
    + now apply pushed_joinPaths.
    + apply filter_In. split; [|exact Hl].
      apply filter_In. split; [assumption|apply starts_with_joinPaths].
Qed.

End Enumeration.

(** ** Path joining *)

(** C7. Path join identities: for all path strings a and b,
    join(a, "") = a and join("", b) = b, and for non-empty a and b,
    join(a, b) = a + "." + b.  Joining with an empty side returns the other
    side unchanged, so it adds no separator: no leading, trailing or empty
    segment comes from it. *)
Theorem joinPaths_identities (a b : string) :
  joinPaths a "" = a /\
  joinPaths "" b = b /\
  (a <> "" -> b <> "" -> joinPaths a b = (a ++ "." ++ b)%string).
Proof.
  unfold joinPaths. repeat split.
  - destruct (a =? "")%string eqn:E; [|reflexivity].
    apply String.eqb_eq in E. now subst.
  - intros Ha Hb.
    apply String.eqb_neq in Ha, Hb. now rewrite Ha, Hb.
Qed.

(** ** The typed get/set contract *)

Section Contract.

Context {PathPropData : Type} {PathPropData_ctor : DefaultCtor PathPropData}.
Context {TData : Type} {Tr : Translator TData}.

#[local] Abbreviation PRecord := (PRecord PathPropData).
#[local] Abbreviation propmap_t := (propmap_t PathPropData).

Implicit Types (r : PRecord) (pm : propmap_t) (d : TData).

(** The three outcomes of the no-default [get], by the record that
    [getOptional] reads. *)
Lemma get_undefined (v : ConstRef) p pm :
  defined (fst (ConstRef_getRecord v p pm)) = false ->
  fst (get (TData:=TData) v p pm) =
  inl (PropsError_ctor (selfPath v ++ "." ++ p) "Undefined property: ").
Proof.
  unfold get, getOptional, get_as.
  destruct (ConstRef_getRecord v p pm) as [r pm']. cbn [fst].
  now intros ->.
Qed.

Lemma get_bad_format (v : ConstRef) p pm :
  defined (fst (ConstRef_getRecord v p pm)) = true ->
  get_value (TData:=TData) (value (fst (ConstRef_getRecord v p pm))) = None ->
  fst (get (TData:=TData) v p pm) =
  inl (PropsError_ctor (selfPath v ++ "." ++ p) "Bad format ").
Proof.
  unfold get, getOptional, get_as.
  destruct (ConstRef_getRecord v p pm) as [r pm']. cbn [fst].
  now intros -> ->.
Qed.

Lemma get_decoded (v : ConstRef) p pm d :
  defined (fst (ConstRef_getRecord v p pm)) = true ->
  get_value (value (fst (ConstRef_getRecord v p pm))) = Some d ->
  fst (get v p pm) = inr d.
Proof.
  unfold get, getOptional, get_as.
  destruct (ConstRef_getRecord v p pm) as [r pm']. cbn [fst].
  now intros -> ->.
Qed.

(** With both sides non-empty the path in the error is the joined path. *)
Lemma get_error_path_joined (v : ConstRef) p :
  selfPath v <> "" -> p <> "" ->
  (selfPath v ++ "." ++ p)%string = joinPaths (selfPath v) p.
Proof.
  intros Hv Hp. unfold joinPaths.
  apply String.eqb_neq in Hv, Hp. now rewrite Hv, Hp.
Qed.

Lemma set_as_failed r d :
  put_value d = None ->
  set_as d r =
    {| value := "<invalid>"; defined := false; pathData := pathData r |}.
Proof. intros Hput. unfold set_as. now rewrite Hput. Qed.

(** C9. A failed encode clobbers the previous value: whatever the prior
    state of the record, set_as<T>(v) with a value the codec fails to
    encode leaves it with defined = false and value = "<invalid>"; the
    prior string is overwritten and the record is no longer reported as
    defined. *)
Theorem set_as_failure_clobbers r d :
  put_value d = None ->
  set_as d r =
    {| value := "<invalid>"; defined := false; pathData := pathData r |} /\
  isDefined (set_as d r) = false /\
  getValue (set_as d r) = "<invalid>".
Proof.
  intros Hput. unfold isDefined, getValue, set_as. now rewrite Hput.
Qed.

(** C1, amended. When encoding fails, set_as<T>(v), and set<T>(path, v)
    through it, leaves the record undefined (defined = false) with the
    placeholder "<invalid>" as its value and its path data unchanged; the
    record is stored under the joined path, and on the next read
    getOptional returns empty and reports not defined, the same result it
    gives for a never-set path, so the failed write is not visible as a
    defined value on the next read. *)
Theorem set_failure_leaves_undefined (w : Ref) path d r pm :
  put_value d = None ->
  defined (set_as d r) = false /\
  value (set_as d r) = "<invalid>" /\
  pathData (set_as d r) = pathData r /\
  (exists r',
    map_find (joinPaths (selfPath w) path) (set w path d pm) = Some r' /\
    defined r' = false /\
    value r' = "<invalid>" /\
    pathData r' =
      pathData (fst (getRecord (joinPaths (selfPath w) path) pm)) /\
    getOptional (TData:=TData) w path (set w path d pm) =
      ((None, false), set w path d pm)) /\
  (forall pm0,
     map_find (joinPaths (selfPath w) path) pm0 = None ->
     fst (getOptional (TData:=TData) w path pm0) = (None, false)).
Proof.
  intros Hput.
  pose proof (set_as_failed r d Hput) as Hr.
  rewrite Hr. split; [reflexivity|]. split; [reflexivity|].
  split; [reflexivity|]. split.
  - pose proof (on_record_find (joinPaths (selfPath w) path) (set_as d) pm)
      as Hf.
    fold (set w path d pm) in Hf.
    eexists. split; [exact Hf|].
    pose proof (set_as_failed
                  (fst (getRecord (joinPaths (selfPath w) path) pm)) d Hput)
      as Hr'.
    rewrite Hr'. split; [reflexivity|]. split; [reflexivity|].
    split; [reflexivity|].
    unfold getOptional, ConstRef_getRecord.
    rewrite Hr' in Hf. rewrite (getRecord_present _ _ _ Hf). reflexivity.
  - intros pm0 Hnone. unfold getOptional, ConstRef_getRecord.
    now rewrite (getRecord_absent _ _ Hnone).
Qed.

(** C5. Round trip: for a value v that the codec encodes and decodes back
    to v, set<T>(p, v) on a write view followed by get<T> on a view of the
    same store that addresses the same joined path returns v (and the read
    leaves the table as the write left it). *)
Theorem set_get_roundtrip (w : Ref) (v : ConstRef) p q d s pm :
  put_value d = Some s ->
  get_value s = Some d ->
  joinPaths (selfPath v) q = joinPaths (selfPath w) p ->
  get v q (set w p d pm) = (inr d, set w p d pm).
Proof.
  intros Hput Hget Hpath.
  pose proof (on_record_find (joinPaths (selfPath w) p) (set_as d) pm) as Hf.
  fold (set w p d pm) in Hf.
  unfold get, getOptional, ConstRef_getRecord.
  rewrite Hpath, (getRecord_present _ _ _ Hf).
  unfold get_as, set_as. rewrite Hput. cbn. now rewrite Hget.
Qed.

(** C4. Reading a never-touched path materializes a default record: on a
    fresh store getOptional<T>(p) returns empty (and reports not defined),
    and leaves a record with defined = false under the joined path; the
    view's listKeysRecursive then yields p with withUndefined = true and
    nothing with withUndefined = false.  The spec's test is p = "x". *)
Theorem getOptional_materializes (v : ConstRef) p :
  let k := joinPaths (selfPath v) p in
  getOptional (TData:=TData) v p PTree_ctor =
    ((None, false), [(k, Record_ctor)]) /\
  defined (Record_ctor : PRecord) = false /\
  listKeysRecursive v [] true [(k, Record_ctor : PRecord)] = [p] /\
  listKeysRecursive v [] false [(k, Record_ctor : PRecord)] = [].
Proof.
  intros k. split; [reflexivity|]. split; [reflexivity|].
  assert (Ho : ordered [(k, Record_ctor : PRecord)])
    by (repeat constructor).
  rewrite !listKeysRecursive_scan by exact Ho.
  cbn [filter]. rewrite (starts_with_joinPaths (selfPath v) p).
  cbn [filter listed snd isDefined Record_ctor defined orb map fst].
  destruct (selfPath v =? "")%string eqn:E.
  - apply String.eqb_eq in E. subst k. rewrite E. now split.
  - apply String.eqb_neq in E. cbn [filter map].
    subst k. rewrite pushed_joinPaths by exact E. now split.
Qed.

(** C6. undefine is a soft delete: after set(p, v) then undefine(p),
    getOptional(p) returns empty, yet the record under the joined path is
    still there with the string value and the path data that set left;
    only the defined flag is cleared, and p still appears in
    listKeysRecursive with withUndefined = true. *)
Theorem undefine_is_soft (w : Ref) p d pm :
  ordered pm ->
  let k := joinPaths (selfPath w) p in
  let pm1 := set w p d pm in
  let pm2 := undefine w p pm1 in
  fst (getOptional (TData:=TData) w p pm2) = (None, false) /\
  (exists r1,
     map_find k pm1 = Some r1 /\
     map_find k pm2 =
       Some {| value := value r1; defined := false;
               pathData := pathData r1 |} /\
     pm2 = map_store k (Record_undefine r1) pm1) /\
  In p (listKeysRecursive w [] true pm2).
Proof.
  intros Ho k pm1 pm2.
  assert (H1 : map_find k pm1 = Some (set_as d (fst (getRecord k pm))))
    by apply on_record_find.
  assert (H2 : map_find k pm2 =
               Some (Record_undefine (set_as d (fst (getRecord k pm))))).
  { unfold pm2, undefine. fold k. rewrite on_record_find.
    now rewrite (getRecord_present _ _ _ H1). }
  split; [|split].
  - unfold getOptional, ConstRef_getRecord. fold k.
    now rewrite (getRecord_present _ _ _ H2).
  - eexists. split; [exact H1|]. split; [exact H2|].
    unfold pm2, undefine. fold k. rewrite on_record_eq.
    now rewrite (getRecord_present _ _ _ H1).
  - eapply listKeysRecursive_includes; [|exact H2|reflexivity].
    apply on_record_ordered, on_record_ordered, Ho.
Qed.

(** C10. undefine on a write view also materializes: for a path p whose
    joined path has no record yet, undefine(p) creates a record there with
    defined = false, so p then appears in listKeysRecursive with
    withUndefined = true although no value was ever set at it. *)
Theorem undefine_materializes (w : Ref) p pm :
  ordered pm ->
  map_find (joinPaths (selfPath w) p) pm = None ->
  let pm' := undefine w p pm in
  (exists r,
     map_find (joinPaths (selfPath w) p) pm' = Some r /\
     defined r = false /\ value r = "") /\
  In p (listKeysRecursive w [] true pm').
Proof.
  intros Ho Hnone pm'.
  assert (Hf : map_find (joinPaths (selfPath w) p) pm' =
               Some (Record_undefine Record_ctor)).
  { unfold pm', undefine. rewrite on_record_find.
    now rewrite (getRecord_absent _ _ Hnone). }
  split.
  - eexists. split; [exact Hf|]. now split.
  - eapply listKeysRecursive_includes; [|exact Hf|reflexivity].
    apply on_record_ordered, Ho.
Qed.

End Contract.

(** ** Worked examples *)

Lemma store_dash_ordered : ordered store_dash.
Proof.
  unfold store_dash, set.
  repeat apply on_record_ordered. apply PTree_ctor_ordered.
Qed.

Lemma joinPaths_identities_witness :
  "nested" <> "" /\ "name" <> "" /\
  joinPaths "nested" "" = "nested" /\
  joinPaths "" "name" = "name" /\
  joinPaths "nested" "name" = "nested.name".
Proof.
  assert (Ha : "nested" <> "") by discriminate.
  assert (Hb : "name" <> "") by discriminate.
  destruct (joinPaths_identities "nested" "name") as (H1 & H2 & H3).
  exact (conj Ha (conj Hb (conj H1 (conj H2 (H3 Ha Hb))))).
Defined.

Lemma set_as_failure_clobbers_witness :
  put_value 12 = None /\
  set_as 12 rec_seven =
    {| value := "<invalid>"; defined := false; pathData := tt |} /\
  isDefined (set_as 12 rec_seven) = false /\
  getValue (set_as 12 rec_seven) = "<invalid>".
Proof.
  split; [reflexivity|].
  exact (set_as_failure_clobbers rec_seven 12 eq_refl).
Defined.

(** C1, as stated, fails: twelve has no digit encoding, and after
    [set_as] the record is not defined; read back through a root view of a
    fresh store, the out-parameter of [getOptional] reports [false] as it
    does for a record that was never set. *)
Lemma set_as_failure_defined_counterexample :
  put_value 12 = None /\
  defined (set_as 12 (Record_ctor : PRecord unit)) <> true /\
  snd (fst (getOptional (TData:=nat) R0 "n" (set R0 "n" 12 fresh))) <> true /\
  snd (fst (getOptional (TData:=nat) R0 "n" fresh)) = false.
Proof.
  repeat split; cbn; discriminate.
Qed.

Lemma set_failure_leaves_undefined_witness :
  put_value 12 = None /\
  map_find (joinPaths (selfPath R0) "n") fresh = None /\
  defined (set_as 12 rec_seven) = false /\
  value (set_as 12 rec_seven) = "<invalid>" /\
  pathData (set_as 12 rec_seven) = pathData rec_seven /\
  (exists r',
    map_find (joinPaths (selfPath R0) "n") (set R0 "n" 12 (set R0 "n" 7 fresh))
      = Some r' /\
    defined r' = false /\
    value r' = "<invalid>" /\
    pathData r' =
      pathData (fst (getRecord (joinPaths (selfPath R0) "n")
                       (set R0 "n" 7 fresh))) /\
    getOptional (TData:=nat) R0 "n" (set R0 "n" 12 (set R0 "n" 7 fresh)) =
      ((None, false), set R0 "n" 12 (set R0 "n" 7 fresh))) /\
  fst (getOptional (TData:=nat) R0 "n" fresh) = (None, false).
Proof.
  destruct (set_failure_leaves_undefined (Tr:=digit_translator) R0 "n" 12
              rec_seven (set R0 "n" 7 fresh) eq_refl)
    as (H1 & H2 & H3 & H4 & H5).
  exact (conj eq_refl (conj eq_refl (conj H1 (conj H2 (conj H3 (conj H4
           (H5 fresh eq_refl))))))).
Defined.

(** The spec's scenario: written through the view at ["nested"], read
    through the root view. *)
Lemma set_get_roundtrip_witness :
  put_value "abc" = Some "abc" /\
  get_value "abc" = Some "abc" /\
  joinPaths (selfPath R0) "nested.name" =
    joinPaths (selfPath (getSubtree R0 "nested")) "name" /\
  get R0 "nested.name" (set (getSubtree R0 "nested") "name" "abc" fresh) =
    (inr "abc", set (getSubtree R0 "nested") "name" "abc" fresh).
Proof.
  split; [reflexivity|]. split; [reflexivity|]. split; [reflexivity|].
  exact (set_get_roundtrip (getSubtree R0 "nested") R0 "name" "nested.name"
           "abc" "abc" fresh eq_refl eq_refl eq_refl).
Defined.

Lemma undefine_is_soft_witness :
  ordered store_dash /\
  fst (getOptional (TData:=string) R0 "a-b"
         (undefine R0 "a-b" (set R0 "a-b" "9" store_dash))) = (None, false) /\
  (exists r1,
     map_find "a-b" (set R0 "a-b" "9" store_dash) = Some r1 /\
     map_find "a-b" (undefine R0 "a-b" (set R0 "a-b" "9" store_dash)) =
       Some {| value := value r1; defined := false;
               pathData := pathData r1 |} /\
     undefine R0 "a-b" (set R0 "a-b" "9" store_dash) =
       map_store "a-b" (Record_undefine r1) (set R0 "a-b" "9" store_dash)) /\
  In "a-b" (listKeysRecursive R0 [] true
              (undefine R0 "a-b" (set R0 "a-b" "9" store_dash))).
Proof.
  split; [exact store_dash_ordered|].
  exact (undefine_is_soft (TData:=string) R0 "a-b" "9" store_dash
           store_dash_ordered).
Defined.

Lemma undefine_materializes_witness :
  ordered store_dash /\
  map_find (joinPaths (selfPath (getSubtree R0 "a")) "c") store_dash = None /\
  (exists r,
     map_find (joinPaths (selfPath (getSubtree R0 "a")) "c")
       (undefine (getSubtree R0 "a") "c" store_dash) = Some r /\
     defined r = false /\ value r = "") /\
  In "c" (listKeysRecursive (getSubtree R0 "a") [] true
            (undefine (getSubtree R0 "a") "c" store_dash)).
Proof.
  split; [exact store_dash_ordered|]. split; [reflexivity|].
  exact (undefine_materializes (getSubtree R0 "a") "c" store_dash
           store_dash_ordered eq_refl).
Defined.

(** C2. On a root view the path carried by the error is not the joined
    path: for the never-set ["x"] the record read is the one under
    [joinPaths "" "x"], that is ["x"], while the error names [".x"]. *)
Theorem get_error_path_on_root :
  get (TData:=string) R0 "x" fresh =
    (inl {| what := "Undefined property: .x"; propertyName := ".x" |},
     [("x", Record_ctor)]) /\
  joinPaths (selfPath R0) "x" = "x" /\
  fst (get (TData:=nat) R0 "x" (set R0 "x" "zz" fresh)) =
    inl {| what := "Bad format .x"; propertyName := ".x" |}.
Proof. repeat split. Qed.

(** C3. The scan of a view at ["a"] also visits the key ["ab"], which is
    no part of the subtree of ["a"], and pushes it as [""] after ["b"]. *)
Theorem listKeysRecursive_visits_sibling :
  map fst store_sibling = ["a.b"; "ab"] /\
  listKeysRecursive (getSubtree R0 "a") [] false store_sibling = ["b"; ""].
Proof. split; reflexivity. Qed.

(** C8. With the keys ["a"], ["a-b"] and ["a.b"] the first segments come
    in the order a, a-b, a, so the comparison with the previous key lets
    the child ["a"] through twice and the result is not ascending. *)
Theorem listKeys_repeats_child :
  listKeysRecursive R0 [] false store_dash = ["a"; "a-b"; "a.b"] /\
  listKeys R0 [] false store_dash = ["a"; "a-b"; "a"].
Proof. split; reflexivity. Qed.

(** ** Paths: joining, splitting and navigation *)

Module PathFacts.

Lemma find_dot_cons (c : ascii) (s : string) :
  find_dot (String c s) =
  if ascii_dec "." c then Some 0
  else match find_dot s with Some n => Some (S n) | None => None end.
Proof.
  unfold find_dot. cbn [index prefix].
  destruct (ascii_dec "." c); [now destruct s | reflexivity].
Qed.

Lemma splitFirst_cons (c : ascii) (s : string) :
  splitFirst (String c s) =
  if ascii_dec "." c then "" else String c (splitFirst s).
Proof.
  unfold splitFirst. rewrite find_dot_cons.
  destruct (ascii_dec "." c); [reflexivity|].
  destruct (find_dot s); reflexivity.
Qed.

Lemma find_dot_append_dot (a b : string) :
  find_dot a = None -> find_dot (a ++ "." ++ b) = Some (String.length a).
Proof.
  induction a as [|c a IH]; intros H.
  - change ("" ++ "." ++ b)%string with (String "." b).
    rewrite find_dot_cons.
    destruct (ascii_dec "." "."); [reflexivity | congruence].
  - rewrite find_dot_cons in H.
    change (String c a ++ "." ++ b)%string with (String c (a ++ "." ++ b)).
    rewrite find_dot_cons.
    destruct (ascii_dec "." c); [discriminate|].
    destruct (find_dot a); [discriminate|].
    now rewrite IH.
Qed.

Lemma find_dot_append_some (a b : string) :
  find_dot (a ++ "." ++ b) <> None.
Proof.
  induction a as [|c a IH].
  - change ("" ++ "." ++ b)%string with (String "." b).
    rewrite find_dot_cons.
    destruct (ascii_dec "." "."); congruence.
  - change (String c a ++ "." ++ b)%string with (String c (a ++ "." ++ b)).
    rewrite find_dot_cons.
    destruct (ascii_dec "." c); [discriminate|].
    destruct (find_dot (a ++ "." ++ b)); congruence.
Qed.

Lemma substring_append_prefix (a s : string) :
  substring 0 (String.length a) (a ++ s) = a.
Proof.
  induction a as [|c a IH]; [now destruct s|].
  change (String c a ++ s)%string with (String c (a ++ s)).
  cbn [String.length substring]. now rewrite IH.
Qed.

Lemma joinPaths_empty_r (a : string) : joinPaths a "" = a.
Proof.
  unfold joinPaths. destruct (a =? "")%string eqn:E; [|reflexivity].
  apply String.eqb_eq in E. now subst.
Qed.

Lemma joinPaths_nonempty (a b : string) :
  a <> "" -> b <> "" -> joinPaths a b = (a ++ "." ++ b)%string.
Proof.
  intros Ha Hb. unfold joinPaths.
  apply String.eqb_neq in Ha, Hb. now rewrite Ha, Hb.
Qed.

Lemma splitFirst_no_dot (p : string) : find_dot (splitFirst p) = None.
Proof.
  induction p as [|c p IH]; [reflexivity|].
  rewrite splitFirst_cons.
  destruct (ascii_dec "." c) as [|Hc]; [reflexivity|].
  rewrite find_dot_cons.
  destruct (ascii_dec "." c); [contradiction|]. now rewrite IH.
Qed.

Lemma joinPaths_associative (a b c : string) :
  joinPaths (joinPaths a b) c = joinPaths a (joinPaths b c).
Proof.
  destruct a as [|x a]; [reflexivity|].
  destruct b as [|y b]; [reflexivity|].
  destruct c as [|z c];
    [cbn; now destruct (a ++ String "." (String y b))%string|].
  unfold joinPaths. cbn [String.eqb append].
  f_equal. now rewrite StrFacts.append_assoc.
Qed.

Lemma compare_append_l (p a b : string) :
  (p ++ a ?= p ++ b)%string = (a ?= b)%string.
Proof.
  induction p as [|c p IH]; cbn; [reflexivity|].
  now rewrite StrFacts.ascii_compare_refl.
Qed.

End PathFacts.

(** X1. joinPaths is associative: joining three paths gives the same
    string whichever pair is joined first (empty sides included). *)
Theorem joinPaths_assoc (a b c : string) :
  joinPaths (joinPaths a b) c = joinPaths a (joinPaths b c).
Proof.
  destruct (string_dec a "") as [->|Ha]; [reflexivity|].
  destruct (string_dec c "") as [->|Hc];
    [now rewrite !PathFacts.joinPaths_empty_r|].
  apply PathFacts.joinPaths_associative.
Qed.

(** X2. Navigation composes: two getSubtree steps reach the view that one
    step with the joined path reaches, two reIDfy steps the view of one
    step with the joined id, and getSubtreeForSubId is getSubtree followed
    by reIDfy; getSubtree leaves the id alone and reIDfy the path. *)
Theorem navigation_composes (w : Ref) (a b : string) :
  getSubtree (getSubtree w a) b = getSubtree w (joinPaths a b) /\
  reIDfy (reIDfy w a) b = reIDfy w (joinPaths a b) /\
  getSubtreeForSubId w a b = reIDfy (getSubtree w a) b /\
  getId (getSubtree w a) = getId w /\
  getPath (reIDfy w a) = getPath w.
Proof.
  destruct w as [[sp id]].
  unfold getSubtree, reIDfy, getSubtreeForSubId, getSubtreeImpl,
    ConstRef_reIDfy, ConstRef_getSubtreeForSubId, ConstRef_getSubtree,
    getSubtreeImpl. cbn.
  now rewrite !PathFacts.joinPaths_associative.
Qed.

(** X3. splitFirst cuts at the first separator: the path is the segment
    it returns followed by nothing or by a remainder that starts with the
    separator, and the segment itself holds no separator (so splitting
    twice changes nothing). *)
Theorem splitFirst_segment (p : string) :
  (exists rest, p = (splitFirst p ++ rest)%string /\
                (rest = "" \/ exists t, rest = String "." t)) /\
  find_dot (splitFirst p) = None /\
  splitFirst (splitFirst p) = splitFirst p.
Proof.
  pose proof (PathFacts.splitFirst_no_dot p) as Hnd.
  split; [|split; [exact Hnd|]].
  - clear Hnd. induction p as [|c p IH].
    + exists "". split; [reflexivity | now left].
    + destruct IH as (rest & Hr & Hcase).
      rewrite PathFacts.splitFirst_cons.
      destruct (ascii_dec "." c) as [<-|Hc].
      * exists (String "." p). split; [reflexivity|]. right. now exists p.
      * exists rest. split; [|exact Hcase].
        change (String c (splitFirst p) ++ rest)%string
          with (String c (splitFirst p ++ rest)).
        now rewrite <- Hr.
  - unfold splitFirst at 1. now rewrite Hnd.
Qed.

(** X4. Splitting undoes joining: for a simple path a (non-empty, without
    separator) and any path b, the first segment of joinPaths(a, b) is a. *)
Theorem splitFirst_joinPaths (a b : string) :
  isSimplePath a = true -> splitFirst (joinPaths a b) = a.
Proof.
  unfold isSimplePath. intros H. apply andb_prop in H as [Hne Hnd].
  destruct (find_dot a) eqn:Hd; [discriminate|].
  unfold joinPaths.
  destruct (a =? "")%string; [discriminate|].
  destruct (b =? "")%string.
  - unfold splitFirst. now rewrite Hd.
  - unfold splitFirst. rewrite (PathFacts.find_dot_append_dot a b Hd).
    apply PathFacts.substring_append_prefix.
Qed.

(** X5. A path is simple exactly when it is non-empty and is its own first
    segment; the join of two non-empty paths is never simple. *)
Theorem isSimplePath_iff (p : string) :
  (isSimplePath p = true <-> p <> "" /\ splitFirst p = p) /\
  (forall q, p <> "" -> q <> "" -> isSimplePath (joinPaths p q) = false).
Proof.
  split.
  - unfold isSimplePath. split.
    + intros H. apply andb_prop in H as [Hne Hnd]. split.
      * intros ->. discriminate.
      * unfold splitFirst. now destruct (find_dot p).
    + intros [Hne Hs].
      apply String.eqb_neq in Hne. rewrite Hne. cbn [negb andb].
      destruct (find_dot p) eqn:Hd; [|reflexivity].
      pose proof (PathFacts.splitFirst_no_dot p) as Hnd.
      rewrite Hs, Hd in Hnd. discriminate.
  - intros q Hp Hq. unfold isSimplePath.
    rewrite (PathFacts.joinPaths_nonempty p q Hp Hq).
    pose proof (PathFacts.find_dot_append_some p q) as Hd.
    destruct (find_dot (p ++ "." ++ q)); [apply andb_false_r | congruence].
Qed.

(** ** The table under writes: frame, overwrite, commutation, growth *)

Section TableAlgebra.

Context {PathPropData : Type} {PathPropData_ctor : DefaultCtor PathPropData}.

#[local] Abbreviation PRecord := (PRecord PathPropData).
#[local] Abbreviation propmap_t := (propmap_t PathPropData).

Implicit Types (k path : string) (r : PRecord) (pm : propmap_t)
  (f g : PRecord -> PRecord).

Lemma map_find_store_other k k' r pm :
  k' <> k -> map_find k' (map_store k r pm) = map_find k' pm.
Proof.
  intros Hne. induction pm as [|[c rc] rest IH].
  - cbn. destruct (k' ?= k)%string eqn:E; try reflexivity.
    now apply StrFacts.compare_eq in E.
  - cbn [map_store]. destruct (k ?= c)%string eqn:Ekc.
    + apply StrFacts.compare_eq in Ekc. subst c. cbn [map_find].
      destruct (k' ?= k)%string eqn:E; try reflexivity.
      now apply StrFacts.compare_eq in E.
    + cbn [map_find]. destruct (k' ?= k)%string eqn:E.
      * now apply StrFacts.compare_eq in E.
      * now rewrite (StrFacts.compare_lt_trans _ _ _ E Ekc).
      * reflexivity.
    + cbn [map_find]. now rewrite IH.
Qed.

Lemma map_store_store k r1 r2 pm :
  map_store k r2 (map_store k r1 pm) = map_store k r2 pm.
Proof.
  induction pm as [|[c rc] rest IH]; cbn [map_store].
  - now rewrite StrFacts.compare_refl.
  - destruct (k ?= c)%string eqn:E; cbn [map_store].
    + now rewrite E.
    + now rewrite StrFacts.compare_refl.
    + now rewrite E, IH.
Qed.

Lemma compare_cases k k' :
  k = k' \/
  ((k ?= k')%string = Lt /\ (k' ?= k)%string = Gt) \/
  ((k ?= k')%string = Gt /\ (k' ?= k)%string = Lt).
Proof.
  rewrite (String.compare_antisym k' k).
  destruct (k ?= k')%string eqn:E; cbn [CompOpp]; auto.
  left. now apply StrFacts.compare_eq.
Qed.

(** Rewriting with the comparisons at hand, and closing the cases that
    contradict the order. *)
Ltac ord_rw :=
  repeat match goal with
  | H : (?a ?= ?b)%string = _ |- context [(?a ?= ?b)%string] => rewrite H
  | |- context [(?a ?= ?a)%string] => rewrite (StrFacts.compare_refl a)
  end.

Ltac ord_sat :=
  repeat match goal with
  | H1 : (?a ?= ?b)%string = Lt, H2 : (?b ?= ?c)%string = Lt |- _ =>
      lazymatch goal with
      | _ : (a ?= c)%string = Lt |- _ => fail
      | _ => pose proof (StrFacts.compare_lt_trans _ _ _ H1 H2)
      end
  end.

Ltac ord_contra :=
  exfalso; ord_sat;
  first [ congruence
        | match goal with
          | H : (?a ?= ?a)%string = Lt |- _ =>
              rewrite StrFacts.compare_refl in H; discriminate
          end ].

Lemma map_store_comm k1 k2 r1 r2 pm :
  k1 <> k2 ->
  map_store k1 r1 (map_store k2 r2 pm) = map_store k2 r2 (map_store k1 r1 pm).
Proof.
  intros Hne.
  induction pm as [|[c rc] rest IH]; cbn [map_store].
  - destruct (compare_cases k1 k2) as [?|[[? ?]|[? ?]]]; [contradiction| |];
      ord_rw; reflexivity.
  - destruct (compare_cases k1 k2) as [?|[[? ?]|[? ?]]]; [contradiction| |];
      destruct (compare_cases k1 c) as [?|[[? ?]|[? ?]]];
      destruct (compare_cases k2 c) as [?|[[? ?]|[? ?]]];
      subst; try contradiction;
      repeat (ord_rw; cbn [map_store]);
      first [ reflexivity | now rewrite IH | ord_contra ].
Qed.

(** The record a reference from [getRecord] points to. *)
Lemma getRecord_fst k pm :
  fst (getRecord k pm) =
  match map_find k pm with Some r => r | None => Record_ctor end.
Proof. unfold getRecord. now destruct (map_find k pm). Qed.

Lemma on_record_store k f pm :
  on_record k f pm = map_store k (f (fst (getRecord k pm))) pm.
Proof.
  rewrite on_record_eq. unfold getRecord.
  destruct (map_find k pm); cbn [fst snd]; [reflexivity|].
  apply map_store_store.
Qed.

Lemma on_record_compose k f g pm :
  on_record k f (on_record k g pm) = on_record k (fun r => f (g r)) pm.
Proof.
  rewrite (on_record_store k f). rewrite getRecord_fst, on_record_find.
  rewrite !on_record_store. apply map_store_store.
Qed.

Lemma getRecord_fst_on_record_other k k' f pm :
  k' <> k -> fst (getRecord k' (on_record k f pm)) = fst (getRecord k' pm).
Proof.
  intros Hne. rewrite !getRecord_fst, on_record_store.
  now rewrite map_find_store_other.
Qed.

Lemma on_record_comm k1 k2 f g pm :
  k1 <> k2 ->
  on_record k1 f (on_record k2 g pm) = on_record k2 g (on_record k1 f pm).
Proof.
  intros Hne.
  rewrite (on_record_store k1 f), (on_record_store k2 g (on_record _ _ _)).
  rewrite !getRecord_fst_on_record_other by congruence.
  rewrite !on_record_store. now apply map_store_comm.
Qed.

Lemma map_store_keys k k' r pm :
  In k' (map fst (map_store k r pm)) <-> k' = k \/ In k' (map fst pm).
Proof.
  induction pm as [|[c rc] rest IH]; cbn [map_store].
  - cbn. intuition congruence.
  - destruct (k ?= c)%string eqn:E; cbn [map fst In].
    + apply StrFacts.compare_eq in E. subst c. intuition congruence.
    + intuition congruence.
    + rewrite IH. intuition congruence.
Qed.

Lemma map_store_length k r pm :
  List.length (map_store k r pm) =
  List.length pm + match map_find k pm with Some _ => 0 | None => 1 end.
Proof.
  induction pm as [|[c rc] rest IH]; cbn [map_store map_find].
  - reflexivity.
  - destruct (k ?= c)%string; cbn [List.length]; [lia | lia |].
    rewrite IH. lia.
Qed.

Lemma map_find_of_In k r pm :
  ordered pm -> In (k, r) pm -> map_find k pm = Some r.
Proof.
  unfold ordered. induction pm as [|[c rc] rest IH]; intros Ho Hin.
  - destruct Hin.
  - inversion Ho as [|? ? Ho' Hall]; subst. cbn [map_find].
    destruct Hin as [[= -> ->]|Hin].
    + now rewrite StrFacts.compare_refl.
    + rewrite Forall_forall in Hall. specialize (Hall _ Hin).
      unfold key_lt in Hall. cbn [fst] in Hall.
      rewrite (proj2 (StrFacts.compare_gt_lt k c) Hall). now apply IH.
Qed.

Lemma filter_map_store_hidden (h : string * PRecord -> bool) k r pm :
  h (k, r) = false -> map_find k pm = None ->
  filter h (map_store k r pm) = filter h pm.
Proof.
  intros Hh. induction pm as [|[c rc] rest IH]; cbn [map_store map_find].
  - intros _. cbn. now rewrite Hh.
  - destruct (k ?= c)%string; intros Hf; [discriminate| |].
    + cbn [filter]. now rewrite Hh.
    + cbn [filter]. now rewrite IH.
Qed.

End TableAlgebra.

(** ** Reads and writes through views: how they compose *)

Section Access.

Context {PathPropData : Type} {PathPropData_ctor : DefaultCtor PathPropData}.
Context {TData : Type} {Tr : Translator TData}.
Context {UData : Type} {Ur : Translator UData}.

#[local] Abbreviation PRecord := (PRecord PathPropData).
#[local] Abbreviation propmap_t := (propmap_t PathPropData).

Implicit Types (k p q : string) (r : PRecord) (pm : propmap_t)
  (d : TData) (e : UData) (w : Ref) (v : ConstRef).

Lemma on_record_ext k (f g : PRecord -> PRecord) pm :
  (forall r, f r = g r) -> on_record k f pm = on_record k g pm.
Proof. intros H. rewrite !on_record_store. now rewrite H. Qed.

Lemma getOptional_eq v p pm :
  getOptional (TData:=TData) v p pm =
  (get_as (fst (getRecord (joinPaths (selfPath v) p) pm)),
   snd (getRecord (joinPaths (selfPath v) p) pm)).
Proof.
  unfold getOptional, ConstRef_getRecord.
  now destruct (getRecord (joinPaths (selfPath v) p) pm).
Qed.

Lemma get_or_eq v p (dflt : TData) pm :
  get_or v p dflt pm =
  (match fst (get_as (fst (getRecord (joinPaths (selfPath v) p) pm))) with
   | Some x => x
   | None => dflt
   end,
   snd (getRecord (joinPaths (selfPath v) p) pm)).
Proof.
  unfold get_or, ConstRef_getRecord.
  now destruct (getRecord (joinPaths (selfPath v) p) pm).
Qed.

Lemma get_snd v p pm :
  snd (get (TData:=TData) v p pm) =
  snd (getRecord (joinPaths (selfPath v) p) pm).
Proof.
  unfold get. rewrite getOptional_eq.
  destruct (get_as _) as [[x|] b]; reflexivity.
Qed.

Lemma getRecord_snd k pm :
  snd (getRecord k pm) =
  match map_find k pm with
  | Some _ => pm
  | None => map_store k Record_ctor pm
  end.
Proof. unfold getRecord. now destruct (map_find k pm). Qed.

Lemma getRecord_read_read k k' pm :
  fst (getRecord k' (snd (getRecord k pm))) = fst (getRecord k' pm).
Proof.
  rewrite getRecord_snd. destruct (map_find k pm) eqn:E; [reflexivity|].
  rewrite !getRecord_fst.
  destruct (string_dec k' k) as [->|Hne].
  - now rewrite map_find_store, E.
  - now rewrite map_find_store_other.
Qed.

(** X6. Every operation of a view keeps the keys of the table strictly
    ascending: the typed and whole-record writes, undefine, and the three
    readers with the record they may insert. *)
Theorem operations_keep_order w v p d r (dflt : TData) pm :
  ordered pm ->
  ordered (set w p d pm) /\
  ordered (undefine w p pm) /\
  ordered (setRecord w p r pm) /\
  ordered (Ref_setValue w d pm) /\
  ordered (snd (getOptional (TData:=TData) v p pm)) /\
  ordered (snd (get (TData:=TData) v p pm)) /\
  ordered (snd (get_or v p dflt pm)).
Proof.
  intros Ho. unfold set, undefine, setRecord, Ref_setValue.
  rewrite getOptional_eq, get_snd, get_or_eq. cbn [snd].
  repeat split; auto using on_record_ordered, getRecord_ordered.
Qed.

(** X7. A write changes one record only: after set, undefine or setRecord
    at p, the lookup of every key other than the joined path gives what it
    gave before. *)
Theorem writes_leave_other_keys w p d r k pm :
  k <> joinPaths (selfPath w) p ->
  map_find k (set w p d pm) = map_find k pm /\
  map_find k (undefine w p pm) = map_find k pm /\
  map_find k (setRecord w p r pm) = map_find k pm.
Proof.
  intros Hne. unfold set, undefine, setRecord.
  rewrite !on_record_store. now rewrite !map_find_store_other.
Qed.

(** X8. Reads do not disturb reads: the three readers leave the same
    table; it is the old table when the joined path had a record; and what
    a later getOptional returns, at any path of any view, is what it would
    have returned without the earlier read. *)
Theorem reads_do_not_disturb v v' p q (dflt : UData) pm :
  snd (get (TData:=UData) v' p pm) = snd (getOptional (TData:=UData) v' p pm) /\
  snd (get_or v' p dflt pm) = snd (getOptional (TData:=UData) v' p pm) /\
  (map_find (joinPaths (selfPath v') p) pm <> None ->
   snd (getOptional (TData:=UData) v' p pm) = pm) /\
  fst (getOptional (TData:=TData) v q
         (snd (getOptional (TData:=UData) v' p pm))) =
  fst (getOptional (TData:=TData) v q pm).
Proof.
  unfold get, get_or, getOptional, ConstRef_getRecord.
  destruct (getRecord (joinPaths (selfPath v') p) pm) as [r1 pm1] eqn:E1.
  assert (Hs : pm1 = snd (getRecord (joinPaths (selfPath v') p) pm))
    by now rewrite E1.
  repeat split.
  - destruct (get_as r1) as [[x|] b]; reflexivity.
  - intros Hf. cbn [snd]. rewrite Hs, getRecord_snd.
    now destruct (map_find (joinPaths (selfPath v') p) pm).
  - cbn [snd].
    pose proof (getRecord_read_read (joinPaths (selfPath v') p)
                  (joinPaths (selfPath v) q) pm) as H.
    rewrite <- Hs in H.
    destruct (getRecord (joinPaths (selfPath v) q) pm1) as [r2 pm2].
    destruct (getRecord (joinPaths (selfPath v) q) pm) as [r3 pm3].
    cbn [fst] in *. now subst.
Qed.

(** X9. The last write wins and forgets what was there: a set after a set
    (of any type) or after an undefine at the same path leaves the table
    that the last set alone leaves, a setRecord after a set the table of the
    setRecord alone, and undefine twice is undefine once. *)
Theorem last_write_wins w p d e r pm :
  set w p d (set w p e pm) = set w p d pm /\
  set w p d (undefine w p pm) = set w p d pm /\
  setRecord w p r (set w p e pm) = setRecord w p r pm /\
  undefine w p (undefine w p pm) = undefine w p pm.
Proof.
  unfold set, undefine, setRecord. rewrite !on_record_compose.
  repeat split; apply on_record_ext; reflexivity.
Qed.

(** X10. Writes at different joined paths commute: two sets, or a set and
    an undefine, give the same table in either order. *)
Theorem writes_commute w w' p q d e pm :
  joinPaths (selfPath w) p <> joinPaths (selfPath w') q ->
  set w p d (set w' q e pm) = set w' q e (set w p d pm) /\
  set w p d (undefine w' q pm) = undefine w' q (set w p d pm).
Proof.
  intros Hne. unfold set, undefine. split; now apply on_record_comm.
Qed.

(** X11. setRecord then getRecord is the identity on records: the record
    written under p is the record read back at p (value, defined flag and
    path data), the read inserts nothing, and getOptional decodes that
    record. *)
Theorem setRecord_getRecord w p r pm :
  ConstRef_getRecord w p (setRecord w p r pm) = (r, setRecord w p r pm) /\
  getOptional (TData:=TData) w p (setRecord w p r pm) =
    (get_as r, setRecord w p r pm).
Proof.
  assert (Hf : map_find (joinPaths (selfPath w) p) (setRecord w p r pm)
               = Some r) by apply on_record_find.
  unfold getOptional, ConstRef_getRecord.
  now rewrite (getRecord_present _ _ _ Hf).
Qed.

(** X12. Typed writes never touch the path data: after set or undefine at
    p the record there carries the path data it had before (the default
    one when there was no record). *)
Theorem writes_keep_pathData w p d pm :
  getPathData (fst (ConstRef_getRecord w p (set w p d pm))) =
    getPathData (fst (ConstRef_getRecord w p pm)) /\
  getPathData (fst (ConstRef_getRecord w p (undefine w p pm))) =
    getPathData (fst (ConstRef_getRecord w p pm)).
Proof.
  unfold ConstRef_getRecord, set, undefine.
  rewrite (getRecord_fst _ (on_record _ (set_as d) _)).
  rewrite (getRecord_fst _ (on_record _ Record_undefine _)).
  rewrite !on_record_find. split; reflexivity.
Qed.

(** X13. Default fallback: get(p, default) returns the default when the
    joined path has no record, after undefine(p), and after a set whose
    encoding failed; after a set of a value that encodes and decodes back
    it returns that value. *)
Theorem get_or_default w p d (dflt : TData) pm :
  (map_find (joinPaths (selfPath w) p) pm = None ->
   fst (get_or w p dflt pm) = dflt) /\
  fst (get_or w p dflt (undefine w p pm)) = dflt /\
  (put_value d = None -> fst (get_or w p dflt (set w p d pm)) = dflt) /\
  (forall s, put_value d = Some s -> get_value s = Some d ->
   fst (get_or w p dflt (set w p d pm)) = d).
Proof.
  rewrite !get_or_eq. cbn [fst]. unfold set, undefine.
  rewrite !getRecord_fst, !on_record_find.
  repeat split.
  - now intros ->.
  - intros Hp. unfold get_as, set_as. now rewrite Hp.
  - intros s Hp Hg. unfold get_as, set_as. rewrite Hp. cbn. now rewrite Hg.
Qed.

End Access.

(** ** The throwing read, table growth and enumeration *)

Section Observation.

Context {PathPropData : Type} {PathPropData_ctor : DefaultCtor PathPropData}.
Context {TData : Type} {Tr : Translator TData}.

#[local] Abbreviation PRecord := (PRecord PathPropData).
#[local] Abbreviation propmap_t := (propmap_t PathPropData).

Implicit Types (k p q sp : string) (r : PRecord) (pm : propmap_t)
  (d : TData) (w : Ref) (v : ConstRef) (wu : bool).

Lemma filter_and {A} (f g : A -> bool) (l : list A) :
  filter f (filter g l) = filter (fun x => g x && f x) l.
Proof.
  induction l as [|a l IH]; [reflexivity|]. cbn [filter].
  destruct (g a); cbn [filter andb]; [destruct (f a)|]; now rewrite IH.
Qed.

Lemma keys_sorted_filter (h : string * PRecord -> bool) pm :
  ordered pm -> StronglySorted str_lt (map fst (filter h pm)).
Proof.
  unfold ordered. induction pm as [|[c rc] rest IH]; intros Ho.
  - constructor.
  - inversion Ho as [|? ? Ho' Hall]; subst. cbn [filter].
    destruct (h (c, rc)); [|now apply IH].
    cbn [map fst]. constructor; [now apply IH|].
    apply Forall_forall. intros x Hx.
    apply in_map_iff in Hx as ([kx rx] & <- & Hin).
    apply filter_In in Hin as [Hin _].
    rewrite Forall_forall in Hall. exact (Hall _ Hin).
Qed.


(** X15. No operation of a view removes a record: after a write or a read
    at p the keys of the table are the keys before together with the joined
    path, and the table has grown by one entry when that path had no record
    and not at all when it had one. *)
Theorem keys_only_grow w v p d k pm :
  (In k (map fst (set w p d pm)) <->
   k = joinPaths (selfPath w) p \/ In k (map fst pm)) /\
  (In k (map fst (undefine w p pm)) <->
   k = joinPaths (selfPath w) p \/ In k (map fst pm)) /\
  (In k (map fst (snd (getOptional (TData:=TData) v p pm))) <->
   k = joinPaths (selfPath v) p \/ In k (map fst pm)) /\
  List.length (set w p d pm) =
    List.length pm +
    match map_find (joinPaths (selfPath w) p) pm with
    | Some _ => 0 | None => 1 end /\
  List.length (undefine w p pm) =
    List.length pm +
    match map_find (joinPaths (selfPath w) p) pm with
    | Some _ => 0 | None => 1 end /\
  List.length (snd (getOptional (TData:=TData) v p pm)) =
    List.length pm +
    match map_find (joinPaths (selfPath v) p) pm with
    | Some _ => 0 | None => 1 end.
Proof.
  unfold set, undefine. rewrite !on_record_store, getOptional_eq.
  cbn [snd]. rewrite getRecord_snd, !map_store_keys, !map_store_length.
  repeat split; try tauto.
  - destruct (map_find (joinPaths (selfPath v) p) pm);
      [tauto | now apply map_store_keys].
  - destruct (map_find (joinPaths (selfPath v) p) pm) as [r0|] eqn:E.
    + intros [->|H]; [|exact H].
      apply map_find_In in E. apply in_map_iff.
      now exists (joinPaths (selfPath v) p, r0).
    + now intros H; apply map_store_keys.
  - destruct (map_find (joinPaths (selfPath v) p) pm) eqn:E;
      [lia | now rewrite map_store_length, E].
Qed.

(** X16. A read is invisible to enumeration without withUndefined: after
    getOptional or the throwing get at any path, every view's
    listKeysRecursive(out, false) yields what it yielded before. *)
Theorem reads_hidden_without_undefined v v' p pm :
  ordered pm ->
  listKeysRecursive v' [] false (snd (getOptional (TData:=TData) v p pm)) =
    listKeysRecursive v' [] false pm /\
  listKeysRecursive v' [] false (snd (get (TData:=TData) v p pm)) =
    listKeysRecursive v' [] false pm.
Proof.
  intros Ho. rewrite get_snd, getOptional_eq. cbn [snd].
  assert (H : listKeysRecursive v' [] false
                (snd (getRecord (joinPaths (selfPath v) p) pm)) =
              listKeysRecursive v' [] false pm); [|now split].
  rewrite !listKeysRecursive_scan by auto using getRecord_ordered.
  rewrite getRecord_snd.
  destruct (map_find (joinPaths (selfPath v) p) pm) eqn:E; [reflexivity|].
  destruct (selfPath v' =? "")%string.
  - now rewrite (filter_map_store_hidden (listed false)).
  - rewrite !filter_and.
    rewrite filter_map_store_hidden; [reflexivity| |exact E].
    unfold listed. cbn. apply andb_false_r.
Qed.

(** X17. Enumeration from a root view: listKeysRecursive yields the keys
    of the listed records in table order, strictly ascending; without
    withUndefined a key is yielded exactly when its record is defined, with
    it exactly when it has a record. *)
Theorem root_enumeration v wu k pm :
  ordered pm ->
  selfPath v = "" ->
  listKeysRecursive v [] wu pm = map fst (filter (listed wu) pm) /\
  StronglySorted str_lt (listKeysRecursive v [] wu pm) /\
  (In k (listKeysRecursive v [] false pm) <->
   exists r, map_find k pm = Some r /\ defined r = true) /\
  (In k (listKeysRecursive v [] true pm) <-> map_find k pm <> None).
Proof.
  intros Ho Hv.
  assert (Hl : forall b, listKeysRecursive v [] b pm =
                         map fst (filter (listed b) pm)).
  { intros b. rewrite listKeysRecursive_scan by exact Ho. now rewrite Hv. }
  rewrite !Hl. split; [reflexivity|]. split; [now apply keys_sorted_filter|].
  split; rewrite in_map_iff; split.
  - intros ([k' r] & Hk & Hin). cbn [fst] in Hk. subst k'.
    apply filter_In in Hin as [Hin Hd]. exists r. split; [|exact Hd].
    now apply map_find_of_In.
  - intros (r & Hf & Hd). exists (k, r). split; [reflexivity|].
    apply filter_In. split; [now apply map_find_In | exact Hd].
  - intros ([k' r] & Hk & Hin). cbn [fst] in Hk. subst k'.
    apply filter_In in Hin as [Hin _].
    now rewrite (map_find_of_In _ _ _ Ho Hin).
  - destruct (map_find k pm) as [r|] eqn:E; [intros _|congruence].
    exists (k, r). split; [reflexivity|].
    apply filter_In. split; [now apply map_find_In | reflexivity].
Qed.

(** X18. A value that was set is enumerated: after a set at p whose
    encoding succeeded, listKeysRecursive(out, false) of every view whose
    joined path with q is the path written yields q; for the writing view
    that is p itself, for a root view the full key. *)
Theorem set_is_enumerated w v p q d s pm :
  ordered pm ->
  put_value d = Some s ->
  joinPaths (selfPath v) q = joinPaths (selfPath w) p ->
  In q (listKeysRecursive v [] false (set w p d pm)) /\
  In p (listKeysRecursive w [] false (set w p d pm)).
Proof.
  intros Ho Hp Hq.
  assert (Hf : map_find (joinPaths (selfPath w) p) (set w p d pm) =
               Some (set_as d (fst (getRecord (joinPaths (selfPath w) p) pm))))
    by apply on_record_find.
  assert (Ho' : ordered (set w p d pm)) by now apply on_record_ordered.
  assert (Hd : forall r, false || isDefined (set_as d r) = true).
  { intros r. unfold isDefined, set_as. now rewrite Hp. }
  split; eapply listKeysRecursive_includes; try exact Ho'; try apply Hd.
  - rewrite Hq. exact Hf.
  - exact Hf.
Qed.

End Observation.

(** ** Enumeration below a view, and the one-level listing *)

Module OrderFacts.

Lemma le_of_lt (a b : string) : str_lt a b -> str_le a b.
Proof. unfold str_lt, str_le. congruence. Qed.

Lemma empty_le (a : string) : str_le "" a.
Proof. unfold str_le. now destruct a. Qed.

Lemma lt_of_le_neq (a b : string) : str_le a b -> a <> b -> str_lt a b.
Proof.
  unfold str_le, str_lt. intros Hle Hne.
  destruct (a ?= b)%string eqn:E; [|reflexivity|congruence].
  now apply StrFacts.compare_eq in E.
Qed.

Lemma lt_trans (a b c : string) : str_lt a b -> str_lt b c -> str_lt a c.
Proof. apply StrFacts.compare_lt_trans. Qed.

Lemma lt_irrefl (a : string) : ~ str_lt a a.
Proof. unfold str_lt. rewrite StrFacts.compare_refl. discriminate. Qed.

Lemma sorted_lt_NoDup (l : list string) :
  StronglySorted str_lt l -> NoDup l.
Proof.
  induction 1 as [|a l Hs IH Hall]; constructor; [|exact IH].
  intros Hin. rewrite Forall_forall in Hall.
  exact (lt_irrefl a (Hall a Hin)).
Qed.

Lemma sorted_filter {A} (R : A -> A -> Prop) (h : A -> bool) (l : list A) :
  StronglySorted R l -> StronglySorted R (filter h l).
Proof.
  induction 1 as [|a l Hs IH Hall]; cbn [filter]; [constructor|].
  destruct (h a); [|exact IH].
  constructor; [exact IH|].
  apply Forall_forall. intros x Hx. apply filter_In in Hx as [Hx _].
  rewrite Forall_forall in Hall. now apply Hall.
Qed.

Lemma prefix_split (a k : string) :
  prefix a k = true -> exists t, k = (a ++ t)%string.
Proof.
  revert k. induction a as [|c a IH]; intros k H.
  - now exists k.
  - destruct k as [|c' k]; [discriminate|]. cbn [prefix] in H.
    destruct (ascii_dec c c') as [<-|]; [|discriminate].
    destruct (IH _ H) as [t ->]. now exists t.
Qed.

Lemma prefix_weaken (a b k : string) :
  prefix (a ++ b) k = true -> prefix a k = true.
Proof.
  intros H. apply prefix_split in H as [t ->].
  rewrite StrFacts.append_assoc. apply StrFacts.prefix_append.
Qed.

End OrderFacts.

(** The loop of [listKeys], for any starting [prevKey]. *)
Lemma listKeys_loop_acc (keys : list string) (prev : string)
    (result : list string) :
  listKeys_loop keys prev result = result ++ listKeys_loop keys prev [].
Proof.
  revert prev result. induction keys as [|key rest IH]; intros prev result.
  - cbn. now rewrite app_nil_r.
  - cbn [listKeys_loop].
    destruct (negb (splitFirst key =? prev)%string); [|apply IH].
    rewrite IH. rewrite (IH _ ([] ++ [splitFirst key])).
    now rewrite <- app_assoc.
Qed.

Lemma listKeys_loop_cons (key : string) (rest : list string) (prev : string) :
  listKeys_loop (key :: rest) prev [] =
  if (splitFirst key =? prev)%string
  then listKeys_loop rest prev []
  else splitFirst key :: listKeys_loop rest (splitFirst key) [].
Proof.
  cbn [listKeys_loop].
  destruct (splitFirst key =? prev)%string; cbn [negb]; [reflexivity|].
  now rewrite listKeys_loop_acc.
Qed.

Lemma listKeys_loop_sound (keys : list string) (prev x : string) :
  In x (listKeys_loop keys prev []) ->
  exists key, In key keys /\ x = splitFirst key.
Proof.
  revert prev. induction keys as [|key rest IH]; intros prev.
  - intros [].
  - rewrite listKeys_loop_cons.
    destruct (splitFirst key =? prev)%string.
    + intros H. destruct (IH _ H) as (k' & Hin & He).
      exists k'. split; [now right | exact He].
    + intros [<-|H]; [exists key; split; [now left | reflexivity]|].
      destruct (IH _ H) as (k' & Hin & He).
      exists k'. split; [now right | exact He].
Qed.

Lemma listKeys_loop_complete (keys : list string) (prev key : string) :
  In key keys ->
  In (splitFirst key) (listKeys_loop keys prev []) \/ splitFirst key = prev.
Proof.
  revert prev. induction keys as [|k0 rest IH]; intros prev;
    [intros H; destruct H|].
  rewrite listKeys_loop_cons.
  destruct (splitFirst k0 =? prev)%string eqn:E.
  - apply String.eqb_eq in E. intros [->|H]; [now right | now apply IH].
  - intros [->|H]; [left; now left|].
    left. destruct (IH (splitFirst k0) H) as [Hin | ->]; [now right | now left].
Qed.

Lemma listKeys_loop_adjacent (keys : list string) (prev : string) :
  Sorted (fun a b => a <> b) (listKeys_loop keys prev []) /\
  HdRel (fun a b => a <> b) prev (listKeys_loop keys prev []).
Proof.
  revert prev. induction keys as [|k0 rest IH]; intros prev.
  - cbn. split; constructor.
  - rewrite listKeys_loop_cons.
    destruct (splitFirst k0 =? prev)%string eqn:E; [apply IH|].
    apply String.eqb_neq in E.
    destruct (IH (splitFirst k0)) as [Hs Hh].
    split; constructor; auto.
Qed.

Lemma listKeys_loop_sorted (keys : list string) (prev : string) :
  Forall (str_le prev) (map splitFirst keys) ->
  StronglySorted str_le (map splitFirst keys) ->
  StronglySorted str_lt (listKeys_loop keys prev []) /\
  Forall (str_lt prev) (listKeys_loop keys prev []).
Proof.
  revert prev. induction keys as [|k0 rest IH]; intros prev Hall Hs.
  - cbn. split; constructor.
  - cbn [map] in Hall, Hs.
    inversion Hall as [|? ? Hp Hall']; subst.
    inversion Hs as [|? ? Hs' Hk]; subst.
    rewrite listKeys_loop_cons.
    destruct (splitFirst k0 =? prev)%string eqn:E; [now apply IH|].
    apply String.eqb_neq in E.
    destruct (IH (splitFirst k0) Hk Hs') as [Hso Hf].
    assert (Hlt : str_lt prev (splitFirst k0))
      by (apply OrderFacts.lt_of_le_neq; congruence).
    split; constructor; auto.
    eapply Forall_impl; [|exact Hf].
    intros x Hx. eapply OrderFacts.lt_trans; eauto.
Qed.

Section Listing.

Context {PathPropData : Type} {PathPropData_ctor : DefaultCtor PathPropData}.
Context {TData : Type} {Tr : Translator TData}.

#[local] Abbreviation PRecord := (PRecord PathPropData).
#[local] Abbreviation propmap_t := (propmap_t PathPropData).

Implicit Types (k p x sp : string) (r : PRecord) (pm : propmap_t)
  (d : TData) (w : Ref) (v : ConstRef) (wu : bool).

Lemma pushed_self sp r : pushed sp (sp, r) = "".
Proof. unfold pushed. cbn [fst]. now rewrite String.eqb_refl. Qed.

Lemma pushed_child sp x r : pushed sp ((sp ++ "." ++ x)%string, r) = x.
Proof.
  unfold pushed. cbn [fst].
  assert (Hne : (sp =? sp ++ "." ++ x)%string = false).
  { apply String.eqb_neq. intros E. symmetry in E.
    apply StrFacts.append_nonempty_neq in E; [contradiction|discriminate]. }
  rewrite Hne.
  replace (String.length sp + 1) with (String.length (sp ++ "."))
    by (rewrite StrFacts.length_append; reflexivity).
  rewrite <- StrFacts.append_assoc.
  apply StrFacts.substr_from_append.
Qed.

Lemma scan_members v wu x pm :
  ordered pm ->
  selfPath v <> "" ->
  (In x (listKeysRecursive v [] wu pm) <->
   exists e, In e pm /\ listed wu e = true /\
             starts_with (selfPath v) e = true /\ x = pushed (selfPath v) e).
Proof.
  intros Ho Hv. rewrite listKeysRecursive_scan by exact Ho.
  apply String.eqb_neq in Hv. rewrite Hv.
  rewrite in_map_iff. split.
  - intros (e & Hx & Hin).
    apply filter_In in Hin as [Hin Hl]. apply filter_In in Hin as [Hin Hs].
    exists e. auto.
  - intros (e & Hin & Hl & Hs & Hx).
    exists e. split; [now subst x|].
    apply filter_In. split; [|exact Hl]. apply filter_In. now split.
Qed.

(** X19. What listKeysRecursive yields below a non-root view: in table
    order, exactly one entry for every listed record whose key has selfPath
    as a string prefix, the empty string for the key selfPath itself and
    otherwise the key without its first size(selfPath) + 1 characters,
    whether or not the character dropped after selfPath is the separator. *)
Theorem subtree_enumeration_by_prefix v wu x pm :
  ordered pm ->
  selfPath v <> "" ->
  listKeysRecursive v [] wu pm =
    map (fun e : string * PRecord =>
           if (selfPath v =? fst e)%string then ""
           else substr_from (String.length (selfPath v) + 1) (fst e))
      (filter (fun e => wu || defined (snd e))
         (filter (fun e => prefix (selfPath v) (fst e)) pm)) /\
  (In x (listKeysRecursive v [] wu pm) <->
   exists k r,
     In (k, r) pm /\ wu || defined r = true /\
     prefix (selfPath v) k = true /\
     x = if (selfPath v =? k)%string then ""
         else substr_from (String.length (selfPath v) + 1) k).
Proof.
  intros Ho Hv. split.
  - rewrite listKeysRecursive_scan by exact Ho.
    apply String.eqb_neq in Hv. now rewrite Hv.
  - rewrite scan_members by assumption. split.
    + intros ([k r] & Hin & Hl & Hs & Hx). exists k, r. auto.
    + intros (k & r & Hin & Hl & Hs & Hx). exists (k, r). auto.
Qed.

(** X20. Subtree enumeration on a table without look-alike keys: when
    every key that starts with selfPath is selfPath itself or continues
    with the separator, listKeysRecursive yields, in table order, exactly
    one entry for every listed record of the subtree (key selfPath, or
    selfPath + "." + rest): the relative path rest, and the empty string
    for the record at selfPath; the entries are in non-decreasing order. *)
Theorem subtree_enumeration_clean v wu pm :
  ordered pm ->
  selfPath v <> "" ->
  (forall k r, In (k, r) pm -> prefix (selfPath v) k = true ->
     k = selfPath v \/ prefix (selfPath v ++ ".") k = true) ->
  listKeysRecursive v [] wu pm =
    map (pushed (selfPath v))
      (filter (listed wu) (filter (in_subtree (selfPath v)) pm)) /\
  Forall (fun e =>
            (fst e = selfPath v /\ pushed (selfPath v) e = "") \/
            fst e = (selfPath v ++ "." ++ pushed (selfPath v) e)%string)
    (filter (in_subtree (selfPath v)) pm) /\
  (forall x,
     In x (listKeysRecursive v [] wu pm) <->
     exists r, wu || defined r = true /\
       ((x = "" /\ In (selfPath v, r) pm) \/
        In ((selfPath v ++ "." ++ x)%string, r) pm)) /\
  StronglySorted str_le (listKeysRecursive v [] wu pm).
Proof.
  intros Ho Hv Hclean. set (sp := selfPath v) in *.
  assert (Hsub : filter (starts_with sp) pm = filter (in_subtree sp) pm).
  { apply filter_ext_in. intros [k r] Hin.
    unfold starts_with, in_subtree. cbn [fst].
    destruct (prefix sp k) eqn:Hp.
    - destruct (Hclean k r Hin Hp) as [->|Hd].
      + now rewrite String.eqb_refl.
      + rewrite Hd. symmetry. apply orb_true_r.
    - destruct (sp =? k)%string eqn:E.
      + apply String.eqb_eq in E. subst k.
        now rewrite StrFacts.prefix_refl in Hp.
      + destruct (prefix (sp ++ ".") k) eqn:Hd; [|reflexivity].
        apply OrderFacts.prefix_weaken in Hd. congruence. }
  split.
  { rewrite listKeysRecursive_scan by exact Ho. fold sp.
    apply String.eqb_neq in Hv. now rewrite Hv, Hsub. }
  split.
  { apply Forall_forall. intros [k r] Hin.
    apply filter_In in Hin as [_ Hin]. unfold in_subtree in Hin.
    cbn [fst] in *. apply orb_prop in Hin as [E|Hd].
    - apply String.eqb_eq in E. subst k. left.
      split; [reflexivity | apply pushed_self].
    - right. apply OrderFacts.prefix_split in Hd as [t ->].
      rewrite StrFacts.append_assoc. now rewrite pushed_child. }
  clear Hsub.
  assert (Hform : forall k r, In (k, r) pm -> prefix sp k = true ->
            k = sp \/ exists t, k = (sp ++ "." ++ t)%string).
  { intros k r Hin Hp. destruct (Hclean k r Hin Hp) as [->|Hd]; [now left|].
    right. apply OrderFacts.prefix_split in Hd as [t ->].
    exists t. apply StrFacts.append_assoc. }
  split.
  - intros x. rewrite scan_members by assumption.
    fold sp. split.
    + intros ([k r] & Hin & Hl & Hp & Hx). exists r. split; [exact Hl|].
      destruct (Hform k r Hin Hp) as [->|[t ->]].
      * left. rewrite pushed_self in Hx. now split.
      * right. rewrite pushed_child in Hx. now subst x.
    + intros (r & Hl & [[-> Hin]|Hin]).
      * exists (sp, r). repeat split; auto.
        -- apply StrFacts.prefix_refl.
        -- now rewrite pushed_self.
      * exists ((sp ++ "." ++ x)%string, r). repeat split; auto.
        -- apply StrFacts.prefix_append.
        -- now rewrite pushed_child.
  - rewrite listKeysRecursive_scan by exact Ho. fold sp.
    apply String.eqb_neq in Hv. rewrite Hv.
    assert (Hs : StronglySorted key_lt
                   (filter (listed wu) (filter (starts_with sp) pm)))
      by now apply OrderFacts.sorted_filter, OrderFacts.sorted_filter.
    assert (Hf : Forall (fun e => fst e = sp \/
                           exists t, fst e = (sp ++ "." ++ t)%string)
                   (filter (listed wu) (filter (starts_with sp) pm))).
    { apply Forall_forall. intros [k r] Hin.
      apply filter_In in Hin as [Hin _]. apply filter_In in Hin as [Hin Hp].
      exact (Hform k r Hin Hp). }
    revert Hs Hf.
    generalize (filter (listed wu) (filter (starts_with sp) pm)) as L.
    induction L as [|[k r] L IH]; intros Hs Hf; [constructor|].
    inversion Hs as [|? ? Hs' Hall]; subst.
    inversion Hf as [|? ? Hk Hf']; subst. cbn [fst] in Hk.
    cbn [map]. constructor; [now apply IH|].
    apply Forall_forall. intros y Hy.
    apply in_map_iff in Hy as ([k' r'] & <- & Hin).
    rewrite Forall_forall in Hall, Hf'.
    specialize (Hall _ Hin). specialize (Hf' _ Hin).
    unfold key_lt in Hall. cbn [fst] in Hall, Hf'.
    destruct Hk as [->|[t ->]].
    + rewrite pushed_self. apply OrderFacts.empty_le.
    + rewrite pushed_child. destruct Hf' as [->|[t' ->]].
      * exfalso. revert Hall. apply StrFacts.prefix_not_lt.
        apply StrFacts.prefix_append.
      * rewrite pushed_child. apply OrderFacts.le_of_lt. unfold str_lt.
        rewrite <- Hall. symmetry.
        rewrite <- !StrFacts.append_assoc.
        apply PathFacts.compare_append_l.
Qed.

(** X21. What listKeys guarantees on every table: it appends to the
    vector it is given; each entry is the first segment of an entry of
    listKeysRecursive and holds no separator; every non-empty first segment
    of such an entry is yielded; no two neighbours are equal, and the first
    entry is never the empty string. *)
Theorem listKeys_segments v wu (result : list string) pm :
  let out := listKeys v [] wu pm in
  listKeys v result wu pm = result ++ out /\
  (forall x, In x out ->
     find_dot x = None /\
     exists key, In key (listKeysRecursive v [] wu pm) /\ x = splitFirst key) /\
  (forall key, In key (listKeysRecursive v [] wu pm) ->
     splitFirst key <> "" -> In (splitFirst key) out) /\
  Sorted (fun a b => a <> b) out /\
  hd_error out <> Some "".
Proof.
  intros out. subst out. unfold listKeys.
  set (keys := listKeysRecursive v [] wu pm).
  split; [apply listKeys_loop_acc|]. split; [|split; [|split]].
  - intros x Hx. destruct (listKeys_loop_sound _ _ _ Hx) as (key & Hin & ->).
    split; [apply PathFacts.splitFirst_no_dot | now exists key].
  - intros key Hin Hne.
    destruct (listKeys_loop_complete keys "" key Hin) as [H|H];
      [exact H | contradiction].
  - apply listKeys_loop_adjacent.
  - destruct (listKeys_loop_adjacent keys "") as [_ Hh].
    inversion Hh as [He|b l Hb He]; cbn; congruence.
Qed.

(** X22. When the first segments of the enumerated entries come in
    non-decreasing order, listKeys yields strictly ascending entries
    without repetition: each non-empty first segment exactly once. *)
Theorem listKeys_sorted v wu pm :
  StronglySorted str_le (map splitFirst (listKeysRecursive v [] wu pm)) ->
  StronglySorted str_lt (listKeys v [] wu pm) /\
  NoDup (listKeys v [] wu pm) /\
  (forall key, In key (listKeysRecursive v [] wu pm) ->
     splitFirst key <> "" -> In (splitFirst key) (listKeys v [] wu pm)).
Proof.
  intros Hs. unfold listKeys.
  assert (Hall : Forall (str_le "")
                   (map splitFirst (listKeysRecursive v [] wu pm)))
    by (apply Forall_forall; intros; apply OrderFacts.empty_le).
  destruct (listKeys_loop_sorted _ "" Hall Hs) as [Hso _].
  split; [exact Hso|]. split; [now apply OrderFacts.sorted_lt_NoDup|].
  intros key Hin Hne.
  destruct (listKeys_loop_complete _ "" key Hin) as [H|H];
    [exact H | contradiction].
Qed.

(** X23. The value at the view itself: setValue on the subtree view at p
    writes what set(p) writes on the parent view (and setValue on a view
    what set("") writes there); getValue with and without default on the
    subtree view read what get(p, default) and getOptional(p) read on the
    parent. *)
Theorem value_at_view w p d (dflt : TData) pm :
  Ref_setValue (getSubtree w p) d pm = set w p d pm /\
  Ref_setValue w d pm = set w "" d pm /\
  ConstRef_getValue_or (getSubtree w p) dflt pm = get_or w p dflt pm /\
  ConstRef_getValue (TData:=TData) (getSubtree w p) pm =
    (fst (fst (getOptional (TData:=TData) w p pm)),
     snd (getOptional (TData:=TData) w p pm)).
Proof.
  pose proof PathFacts.joinPaths_empty_r as He.
  unfold Ref_setValue, ConstRef_getValue_or, ConstRef_getValue, set, get_or,
    getOptional, ConstRef_getRecord, getSubtree, getSubtreeImpl.
  cbn [selfPath Ref_base]. rewrite !He.
  repeat split.
  destruct (getRecord (joinPaths (selfPath w) p) pm) as [r pm'].
  now destruct (get_as r).
Qed.

End Listing.

(** ** Worked examples for the properties above *)

Lemma store_sibling_ordered : ordered store_sibling.
Proof.
  unfold store_sibling, set.
  repeat apply on_record_ordered. apply PTree_ctor_ordered.
Qed.

Lemma store_scenario_ordered : ordered store_scenario.
Proof.
  unfold store_scenario, set.
  repeat apply on_record_ordered. apply PTree_ctor_ordered.
Qed.

Lemma splitFirst_joinPaths_witness :
  isSimplePath "nested" = true /\
  splitFirst (joinPaths "nested" "name.first") = "nested".
Proof.
  split; [reflexivity|].
  exact (splitFirst_joinPaths "nested" "name.first" eq_refl).
Defined.

Lemma isSimplePath_iff_witness :
  "a" <> "" /\ "b" <> "" /\ isSimplePath (joinPaths "a" "b") = false.
Proof.
  assert (Ha : "a" <> "") by discriminate.
  assert (Hb : "b" <> "") by discriminate.
  exact (conj Ha (conj Hb (proj2 (isSimplePath_iff "a") "b" Ha Hb))).
Defined.

Lemma operations_keep_order_witness :
  ordered store_dash /\
  ordered (set R0 "a.c" "1" store_dash) /\
  ordered (undefine R0 "a.c" store_dash) /\
  ordered (setRecord R0 "a.c" rec_seven store_dash) /\
  ordered (Ref_setValue R0 "1" store_dash) /\
  ordered (snd (getOptional (TData:=string) R0 "a.c" store_dash)) /\
  ordered (snd (get (TData:=string) R0 "a.c" store_dash)) /\
  ordered (snd (get_or R0 "a.c" "none" store_dash)).
Proof.
  split; [exact store_dash_ordered|].
  exact (operations_keep_order R0 R0 "a.c" "1" rec_seven "none" store_dash
           store_dash_ordered).
Defined.

Lemma writes_leave_other_keys_witness :
  "a" <> joinPaths (selfPath R0) "a.b" /\
  map_find "a" (set R0 "a.b" "9" store_dash) = map_find "a" store_dash /\
  map_find "a" (undefine R0 "a.b" store_dash) = map_find "a" store_dash /\
  map_find "a" (setRecord R0 "a.b" rec_seven store_dash) =
    map_find "a" store_dash.
Proof.
  assert (Hne : "a" <> joinPaths (selfPath R0) "a.b") by discriminate.
  exact (conj Hne
           (writes_leave_other_keys R0 "a.b" "9" rec_seven "a" store_dash Hne)).
Defined.

Lemma reads_do_not_disturb_witness :
  map_find (joinPaths (selfPath R0) "a") store_dash <> None /\
  snd (getOptional (TData:=nat) R0 "a" store_dash) = store_dash.
Proof.
  assert (Hf : map_find (joinPaths (selfPath R0) "a") store_dash <> None)
    by discriminate.
  exact (conj Hf
           (proj1 (proj2 (proj2
              (reads_do_not_disturb (TData:=string) (UData:=nat)
                 R0 R0 "a" "a" 0 store_dash))) Hf)).
Defined.

Lemma writes_commute_witness :
  joinPaths (selfPath R0) "x" <> joinPaths (selfPath R0) "y" /\
  set R0 "x" "1" (set R0 "y" 2 store_dash) =
    set R0 "y" 2 (set R0 "x" "1" store_dash) /\
  set R0 "x" "1" (undefine R0 "y" store_dash) =
    undefine R0 "y" (set R0 "x" "1" store_dash).
Proof.
  assert (Hne : joinPaths (selfPath R0) "x" <> joinPaths (selfPath R0) "y")
    by discriminate.
  exact (conj Hne (writes_commute R0 R0 "x" "y" "1" 2 store_dash Hne)).
Defined.

Lemma get_or_default_witness :
  map_find (joinPaths (selfPath R0) "n") fresh = None /\
  fst (get_or R0 "n" 5 fresh) = 5 /\
  put_value 12 = None /\
  fst (get_or R0 "n" 5 (set R0 "n" 12 fresh)) = 5 /\
  put_value 3 = Some "3" /\ get_value "3" = Some 3 /\
  fst (get_or R0 "n" 5 (set R0 "n" 3 fresh)) = 3.
Proof.
  destruct (get_or_default R0 "n" 12 5 fresh) as (H1 & _ & H3 & _).
  destruct (get_or_default R0 "n" 3 5 fresh) as (_ & _ & _ & H4).
  exact (conj eq_refl (conj (H1 eq_refl) (conj eq_refl (conj (H3 eq_refl)
           (conj eq_refl (conj eq_refl (H4 "3" eq_refl eq_refl))))))).
Defined.

Lemma reads_hidden_without_undefined_witness :
  ordered store_dash /\
  listKeysRecursive (getSubtree R0 "a") [] false
    (snd (getOptional (TData:=string) R0 "a.zz" store_dash)) =
    listKeysRecursive (getSubtree R0 "a") [] false store_dash /\
  listKeysRecursive (getSubtree R0 "a") [] false
    (snd (get (TData:=string) R0 "a.zz" store_dash)) =
    listKeysRecursive (getSubtree R0 "a") [] false store_dash.
Proof.
  split; [exact store_dash_ordered|].
  exact (reads_hidden_without_undefined (TData:=string) R0
           (getSubtree R0 "a") "a.zz" store_dash store_dash_ordered).
Defined.

Lemma root_enumeration_witness :
  ordered store_dash /\ selfPath R0 = "" /\
  listKeysRecursive R0 [] true store_dash =
    map fst (filter (listed true) store_dash) /\
  StronglySorted str_lt (listKeysRecursive R0 [] true store_dash) /\
  (In "a-b" (listKeysRecursive R0 [] false store_dash) <->
   exists r, map_find "a-b" store_dash = Some r /\ defined r = true) /\
  (In "a-b" (listKeysRecursive R0 [] true store_dash) <->
   map_find "a-b" store_dash <> None).
Proof.
  split; [exact store_dash_ordered|]. split; [reflexivity|].
  exact (root_enumeration R0 true "a-b" store_dash store_dash_ordered eq_refl).
Defined.

Lemma set_is_enumerated_witness :
  ordered store_dash /\
  put_value "v" = Some "v" /\
  joinPaths (selfPath R0) "a.c" =
    joinPaths (selfPath (getSubtree R0 "a")) "c" /\
  In "a.c" (listKeysRecursive R0 [] false
              (set (getSubtree R0 "a") "c" "v" store_dash)) /\
  In "c" (listKeysRecursive (getSubtree R0 "a") [] false
            (set (getSubtree R0 "a") "c" "v" store_dash)).
Proof.
  split; [exact store_dash_ordered|].
  split; [reflexivity|]. split; [reflexivity|].
  exact (set_is_enumerated (getSubtree R0 "a") R0 "c" "a.c" "v" "v" store_dash
           store_dash_ordered eq_refl eq_refl).
Defined.

Lemma subtree_enumeration_by_prefix_witness :
  ordered store_dash /\
  selfPath (getSubtree R0 "a") <> "" /\
  listKeysRecursive (getSubtree R0 "a") [] false store_dash =
    map (fun e : string * PRecord unit =>
           if (selfPath (getSubtree R0 "a") =? fst e)%string then ""
           else substr_from
                  (String.length (selfPath (getSubtree R0 "a")) + 1) (fst e))
      (filter (fun e => false || defined (snd e))
         (filter (fun e => prefix (selfPath (getSubtree R0 "a")) (fst e))
            store_dash)) /\
  listKeysRecursive (getSubtree R0 "a") [] false store_dash = [""; "b"; "b"].
Proof.
  assert (Hne : selfPath (getSubtree R0 "a") <> "") by discriminate.
  exact (conj store_dash_ordered (conj Hne (conj
           (proj1 (subtree_enumeration_by_prefix (getSubtree R0 "a") false ""
                     store_dash store_dash_ordered Hne))
           eq_refl))).
Defined.

Lemma store_scenario_clean k (r : PRecord unit) :
  In (k, r) store_scenario ->
  prefix (selfPath (getSubtree R0 "nested")) k = true ->
  k = selfPath (getSubtree R0 "nested") \/
  prefix (selfPath (getSubtree R0 "nested") ++ ".") k = true.
Proof.
  intros Hin Hp. cbv in Hin.
  destruct Hin as [Hin|[Hin|[]]]; inversion Hin; subst k.
  - discriminate Hp.
  - now right.
Qed.

Lemma subtree_enumeration_clean_witness :
  ordered store_scenario /\
  selfPath (getSubtree R0 "nested") <> "" /\
  listKeysRecursive (getSubtree R0 "nested") [] false store_scenario =
    map (pushed (selfPath (getSubtree R0 "nested")))
      (filter (listed false)
         (filter (in_subtree (selfPath (getSubtree R0 "nested")))
            store_scenario)) /\
  listKeysRecursive (getSubtree R0 "nested") [] false store_scenario =
    ["name"] /\
  StronglySorted str_le
    (listKeysRecursive (getSubtree R0 "nested") [] false store_scenario).
Proof.
  assert (Hne : selfPath (getSubtree R0 "nested") <> "") by discriminate.
  destruct (subtree_enumeration_clean (getSubtree R0 "nested") false
              store_scenario store_scenario_ordered Hne store_scenario_clean)
    as (H1 & _ & _ & H4).
  exact (conj store_scenario_ordered (conj Hne (conj H1 (conj eq_refl H4)))).
Defined.

Lemma store_scenario_segments :
  StronglySorted str_le
    (map splitFirst (listKeysRecursive R0 [] false store_scenario)).
Proof.
  change (StronglySorted str_le ["count"; "nested"]).
  repeat constructor; unfold str_le; cbn; discriminate.
Qed.

Lemma listKeys_sorted_witness :
  StronglySorted str_le
    (map splitFirst (listKeysRecursive R0 [] false store_scenario)) /\
  StronglySorted str_lt (listKeys R0 [] false store_scenario) /\
  NoDup (listKeys R0 [] false store_scenario) /\
  listKeys R0 [] false store_scenario = ["count"; "nested"].
Proof.
  destruct (listKeys_sorted R0 false store_scenario store_scenario_segments)
    as (H1 & H2 & _).
  exact (conj store_scenario_segments (conj H1 (conj H2 eq_refl))).
Defined.
